(** * jsarch: extraction, ordering and rendering of architecture notes

    A shallow embedding of [src/jsarch.js] together with the parts of the
    JavaScript runtime the file relies on (string primitives, [parseInt],
    regular expressions, [Array.prototype.sort], promise chaining, the
    [yerror] and [path] modules).

    Conventions of the model
    - a JavaScript string is a [string]; every character stands for one
      UTF-16 code unit in the range 0..255, code units above 255 are outside
      the model;
    - a JavaScript number produced by [parseInt] is an [option Z], [None]
      being [NaN]; the integers are exact, which agrees with the runtime for
      every value below 2^53;
    - a promise is modelled once settled: [Fulfilled v] or [Rejected e];
    - the services the program is given (file system, globbing, parser,
      the engine's sort) are parameters of its functions. *)

From Stdlib Require Import List String Ascii ZArith Bool Arith Lia.
From Stdlib Require Import Permutation Sorted DecimalString.
Import ListNotations.

Local Open Scope string_scope.
Local Open Scope Z_scope.

(** ** The JavaScript runtime *)

Module JS.

(** *** Characters and strings *)

Definition code (c : ascii) : nat := nat_of_ascii c.

(** [\d] *)
Definition isDigit (c : ascii) : bool :=
  (48 <=? code c)%nat && (code c <=? 57)%nat.

(** [\w] is [A-Za-z0-9_] *)
Definition isWord (c : ascii) : bool :=
  ((65 <=? code c)%nat && (code c <=? 90)%nat)
  || ((97 <=? code c)%nat && (code c <=? 122)%nat)
  || isDigit c
  || (code c =? 95)%nat.

(** [\s], which is also the set [String.prototype.trim] and [parseInt]
    strip: TAB, LF, VT, FF, CR, SP and NBSP among the code units below 256. *)
Definition isSpace (c : ascii) : bool :=
  ((9 <=? code c)%nat && (code c <=? 13)%nat)
  || (code c =? 32)%nat
  || (code c =? 160)%nat.

Definition LF : ascii := ascii_of_nat 10.
Definition CR : ascii := ascii_of_nat 13.

Fixpoint trimStart (s : string) : string :=
  match s with
  | String c t => if isSpace c then trimStart t else s
  | EmptyString => EmptyString
  end.

(** Removes the trailing white space: a character is kept when it is not
    white space or when something is kept after it. *)
Fixpoint trimEnd (s : string) : string :=
  match s with
  | String c t =>
      match trimEnd t with
      | EmptyString => if isSpace c then EmptyString else String c EmptyString
      | t' => String c t'
      end
  | EmptyString => EmptyString
  end.

(** [String.prototype.trim] *)
Definition trim (s : string) : string := trimEnd (trimStart s).

(** [s.substr(n)] for [0 <= n] *)
Fixpoint substr (n : nat) (s : string) : string :=
  match n, s with
  | O, _ => s
  | S n', String _ t => substr n' t
  | S _, EmptyString => EmptyString
  end.

(** [s.split(sep)] for a separator of one character; the empty string gives
    one empty piece. *)
Fixpoint split (sep : ascii) (s : string) : list string :=
  match s with
  | EmptyString => [EmptyString]
  | String c t =>
      if Ascii.eqb c sep then EmptyString :: split sep t
      else match split sep t with
           | h :: r => String c h :: r
           | [] => [String c EmptyString]
           end
  end.

(** [pieces.join(sep)] *)
Fixpoint join (sep : string) (pieces : list string) : string :=
  match pieces with
  | [] => EmptyString
  | [x] => x
  | x :: r => x ++ sep ++ join sep r
  end.

(** truthiness of a string: only the empty string is falsy *)
Definition truthy (s : string) : bool :=
  match s with EmptyString => false | _ => true end.

(** *** Numbers *)

(** A number as [parseInt] returns it: [None] is [NaN]. *)
Definition number := option Z.

Definition digitValue (c : ascii) : Z := Z.of_nat (code c) - 48.

(** Reads the longest prefix of decimal digits; [acc] is [None] until a
    digit has been read. *)
Fixpoint parseDigits (acc : option Z) (s : string) : option Z :=
  match s with
  | String c t =>
      if isDigit c
      then parseDigits
             (Some (10 * match acc with Some v => v | None => 0 end
                    + digitValue c)) t
      else acc
  | EmptyString => acc
  end.

(** [parseInt(s, 10)]: leading white space is skipped, one sign is read, then
    the longest run of decimal digits; no digit at all gives [NaN]. The
    result is the integer written, where the runtime gives the nearest
    double: the two agree below 2^53 (any run of at most 15 digits), and
    differ from there on (rounding, then [Infinity] for some 309 digits).
    A statement that depends on the value of a level carries that bound
    ([exactLevel]); the others hold whatever the values are. *)
Definition parseInt10 (s : string) : number :=
  match trimStart s with
  | String "-" t => option_map Z.opp (parseDigits None t)
  | String "+" t => parseDigits None t
  | t => parseDigits None t
  end.

(** [x > y] and [x < y] on numbers: false as soon as one side is [NaN]. *)
Definition gt (x y : number) : bool :=
  match x, y with Some a, Some b => a >? b | _, _ => false end.
Definition lt (x y : number) : bool :=
  match x, y with Some a, Some b => a <? b | _, _ => false end.

(** *** Arrays *)

(** [arr.reduce((acc, x, index) => f acc x index, init)] *)
Fixpoint reduceFrom {A B : Type} (f : B -> A -> nat -> B)
    (index : nat) (arr : list A) (acc : B) : B :=
  match arr with
  | [] => acc
  | x :: r => reduceFrom f (S index) r (f acc x index)
  end.

Definition reduce {A B : Type} (f : B -> A -> nat -> B)
    (arr : list A) (init : B) : B :=
  reduceFrom f 0 arr init.

(** *** [Array.prototype.sort]

    The language leaves the resulting order to the engine when the comparison
    function is not consistent, so the two algorithms V8 has used for short
    arrays are both modelled. *)

Section Sorting.
Context {A : Type}.
Variable comparefn : A -> A -> Z.

(** V8 up to 6.x (Node.js up to 10), arrays of at most 10 elements:
    insertion sort. Element [a[i]] travels left past every [a[j]] with
    [comparefn(a[j], element) > 0]. The sorted part is kept reversed, its
    head being [a[i-1]]. *)
Fixpoint insertLeftwards (element : A) (sortedRev : list A) : list A :=
  match sortedRev with
  | [] => [element]
  | tmp :: rest =>
      if comparefn tmp element >? 0
      then tmp :: insertLeftwards element rest
      else element :: sortedRev
  end.

Definition InsertionSort (a : list A) : list A :=
  rev (fold_left (fun sortedRev element => insertLeftwards element sortedRev)
                 a []).

(** V8 from 7.0 on (Node.js 11 and later): TimSort. An array shorter than
    64 elements is one run: [CountAndMakeRun] finds the initial run
    (reversing it when it is strictly descending) and
    [BinaryInsertionSort] inserts the remaining elements. *)

(** Number of elements after the second one that continue the run;
    [order = comparefn(currentElement, previousElement)]. *)
Fixpoint countRun (isDescending : bool) (previousElement : A)
    (l : list A) : nat :=
  match l with
  | [] => O
  | currentElement :: r =>
      let order := comparefn currentElement previousElement in
      if (if isDescending then order >=? 0 else order <? 0) then O
      else S (countRun isDescending currentElement r)
  end.

Definition CountAndMakeRun (a : list A) : list A * nat :=
  match a with
  | elementHigh :: elementLow :: r =>
      let order := comparefn elementLow elementHigh in
      let isDescending := order <? 0 in
      let runLength := (2 + countRun isDescending elementLow r)%nat in
      (if isDescending
       then (rev (firstn runLength a) ++ skipn runLength a)%list
       else a,
       runLength)
  | _ => (a, List.length a)
  end.

(** The binary search of [BinaryInsertionSort]:
    [while (left < right) { mid = left + ((right - left) >> 1);
       if (comparefn(pivot, a[mid]) < 0) right = mid; else left = mid + 1 }] *)
Fixpoint searchLeft (fuel : nat) (a : list A) (pivot : A)
    (left right : nat) : nat :=
  match fuel with
  | O => left
  | S fuel' =>
      if (left <? right)%nat then
        let mid := (left + Nat.div2 (right - left))%nat in
        match nth_error a mid with
        | Some m =>
            if comparefn pivot m <? 0
            then searchLeft fuel' a pivot left mid
            else searchLeft fuel' a pivot (S mid) right
        | None => left
        end
      else left
  end.

(** One step of [BinaryInsertionSort]: [a[start]] is moved to the place
    found by the search, the elements in between shift one to the right. *)
Definition insertAt (a : list A) (start : nat) : list A :=
  match nth_error a start with
  | Some pivot =>
      let left := searchLeft (S start) a pivot 0 start in
      (firstn left a ++ pivot :: firstn (start - left) (skipn left a)
         ++ skipn (S start) a)%list
  | None => a
  end.

Fixpoint BinaryInsertionSort (count : nat) (a : list A) (start : nat)
    : list A :=
  match count with
  | O => a
  | S count' => BinaryInsertionSort count' (insertAt a start) (S start)
  end.

(** [ArrayTimSortImpl] for [length < 64], where the minimal run length is
    the length itself. *)
Definition ArrayTimSort (a : list A) : list A :=
  if (List.length a <? 2)%nat then a
  else
    let '(a1, runLength) := CountAndMakeRun a in
    BinaryInsertionSort (List.length a - runLength) a1 runLength.
End Sorting.

(** *** Regular expressions

    The backtracking matcher of the language definition, in continuation
    passing style: a matcher takes the current state and a continuation and
    gives the first success in priority order. Quantifiers are greedy. *)

Inductive Regex :=
| Empty                                   (* the empty alternative *)
| Char (p : ascii -> bool)                (* a character, escape or class *)
| Seq (r1 r2 : Regex)
| Alt (r1 r2 : Regex)                     (* r1|r2 *)
| Repeat (min : nat) (max : option nat) (r : Regex)
| Lookahead (r : Regex)                   (* (?=r) *)
| Group (i : nat) (r : Regex)             (* capturing parentheses *)
| Bol.                                    (* ^ without the m flag *)

Notation "r1 >> r2" := (Seq r1 r2) (at level 61, right associativity).

Definition Star (r : Regex) : Regex := Repeat 0 None r.
Definition Plus (r : Regex) : Regex := Repeat 1 None r.
Definition chr (c : ascii) : ascii -> bool := Ascii.eqb c.

(** The characters of [s] one after the other. *)
Fixpoint Lit (s : string) : Regex :=
  match s with
  | EmptyString => Empty
  | String c t => Char (chr c) >> Lit t
  end.

Record State := {
  endIndex : nat;                    (* characters of the input before [rest] *)
  rest : string;                     (* the input from [endIndex] on *)
  captures : list (nat * string);    (* latest capture of a group first *)
}.

Definition Continuation := State -> option State.
Definition Matcher := State -> Continuation -> option State.

Definition advance (c : ascii) (t : string) (x : State) : State :=
  {| endIndex := S (endIndex x); rest := t; captures := captures x |}.

(** The text between two states of one match. *)
Definition consumed (x y : State) : string :=
  String.substring 0 (endIndex y - endIndex x) (rest x).

Definition setCapture (i : nat) (x y : State) : State :=
  {| endIndex := endIndex y; rest := rest y;
     captures := (i, consumed x y) :: captures y |}.

Definition withCapturesOf (y x : State) : State :=
  {| endIndex := endIndex x; rest := rest x; captures := captures y |}.

Section RepeatMatcher.
Variable m : Matcher.

(** [RepeatMatcher(m, min, max, greedy = true, x, c)]. The continuation
    [d] refuses an iteration that consumed nothing once [min] is 0. *)
Fixpoint RepeatMatcher (min max : nat) (x : State) (c : Continuation)
    : option State :=
  match max with
  | O => c x
  | S max2 =>
      let d := fun y : State =>
        if (min =? 0)%nat && (endIndex y =? endIndex x)%nat then None
        else RepeatMatcher (Nat.pred min) max2 y c in
      match min with
      | S _ => m x d
      | O => match m x d with
             | Some z => Some z
             | None => c x
             end
      end
  end.
End RepeatMatcher.

(** An unbounded quantifier runs with the bound [min + length rest]: past
    the first [min] iterations every iteration consumes a character, so the
    bound is never what stops it. *)
Fixpoint matcher (r : Regex) (x : State) (c : Continuation) {struct r}
    : option State :=
  match r with
  | Empty => c x
  | Char p =>
      match rest x with
      | String ch t => if p ch then c (advance ch t x) else None
      | EmptyString => None
      end
  | Seq r1 r2 => matcher r1 x (fun y => matcher r2 y c)
  | Alt r1 r2 =>
      match matcher r1 x c with
      | Some z => Some z
      | None => matcher r2 x c
      end
  | Repeat min max r1 =>
      RepeatMatcher (matcher r1) min
        (match max with
         | Some n => n
         | None => min + String.length (rest x)
         end)%nat x c
  | Lookahead r1 =>
      match matcher r1 x Some with
      | Some y => c (withCapturesOf y x)
      | None => None
      end
  | Group i r1 => matcher r1 x (fun y => c (setCapture i x y))
  | Bol => if (endIndex x =? 0)%nat then c x else None
  end.

(** The array [exec] returns: [matched] is element 0. *)
Record MatchResult := {
  index : nat;
  matched : string;
  groups : list (nat * string);
}.

(** Element [i] of a match; the empty string stands for a group that took no
    part in the match. *)
Definition group (i : nat) (res : MatchResult) : string :=
  match find (fun g => (fst g =? i)%nat) (groups res) with
  | Some g => snd g
  | None => EmptyString
  end.

Definition initial (i : nat) (s : string) : State :=
  {| endIndex := i; rest := s; captures := [] |}.

(** [exec] of a regular expression without the g and y flags: the match is
    tried at index 0, then 1, ... up to the length of the input. [s] is the
    input from index [i] on. *)
Fixpoint execFrom (r : Regex) (i : nat) (s : string) : option MatchResult :=
  match matcher r (initial i s) Some with
  | Some y =>
      Some {| index := i;
              matched := String.substring 0 (endIndex y - i) s;
              groups := captures y |}
  | None =>
      match s with
      | String _ t => execFrom r (S i) t
      | EmptyString => None
      end
  end.

Definition exec (r : Regex) (s : string) : option MatchResult :=
  execFrom r 0 s.

Definition test (r : Regex) (s : string) : bool :=
  match exec r s with Some _ => true | None => false end.

(** *** Decimal rendering of a line number *)

Definition toString (n : nat) : string :=
  DecimalString.NilEmpty.string_of_uint (Nat.to_uint n).

(** *** Promises, as far as the program chains them *)

Inductive Value :=
| VString (s : string)
| VPathModule.               (* the object [require('path')] returns *)

#[warnings="-register-all"]
Inductive Error :=
| NativeError (message : string)
| YError (wrappedErrors : list Error) (code : string) (params : list Value).

Inductive Promise (A : Type) :=
| Fulfilled (v : A)
| Rejected (e : Error).
Arguments Fulfilled {A} v.
Arguments Rejected {A} e.

(** [p.then(f)]; a callback that throws returns [Rejected]. *)
Definition then_ {A B : Type} (p : Promise A) (f : A -> Promise B)
    : Promise B :=
  match p with
  | Fulfilled v => f v
  | Rejected e => Rejected e
  end.

(** [p.catch(h)] *)
Definition catch_ {A : Type} (p : Promise A) (h : Error -> Promise A)
    : Promise A :=
  match p with
  | Fulfilled v => Fulfilled v
  | Rejected e => h e
  end.

(** [Promise.all]: the values in order when every promise is fulfilled;
    otherwise a rejection. With several rejected promises the runtime keeps
    the one that settles first, the model the one that comes first. *)
Fixpoint all {A : Type} (ps : list (Promise A)) : Promise (list A) :=
  match ps with
  | [] => Fulfilled []
  | Fulfilled v :: r => then_ (all r) (fun vs => Fulfilled (v :: vs))
  | Rejected e :: _ => Rejected e
  end.

(** *** The yerror module *)

Definition message (e : Error) : string :=
  match e with
  | NativeError msg => msg
  | YError _ code _ => code
  end.

Definition wrappedErrorsOf (e : Error) : list Error :=
  match e with
  | NativeError _ => []
  | YError ws _ _ => ws
  end.

Definition isCodeChar (c : ascii) : bool :=
  ((65 <=? code c)%nat && (code c <=? 90)%nat) || isDigit c
  || (code c =? 95)%nat.

Fixpoint allChars (p : ascii -> bool) (s : string) : bool :=
  match s with
  | EmptyString => true
  | String c t => p c && allChars p t
  end.

(** [/^([A-Z0-9_]+)$/.test(str)] *)
Definition looksLikeAYErrorCode (s : string) : bool :=
  truthy s && allChars isCodeChar s.

(** [YError.wrap(err, errorCode, ...params)] with an error code given: the
    wrapped error joins the errors it wraps itself, and its message is
    added to the params unless it reads like an error code. *)
Definition wrap (err : Error) (errorCode : string) (params : list Value)
    : Error :=
  YError (wrappedErrorsOf err ++ [err])%list errorCode
    (if truthy (message err) && negb (looksLikeAYErrorCode (message err))
     then (params ++ [VString (message err)])%list
     else params).

Definition codeOf (e : Error) : string :=
  match e with
  | NativeError _ => EmptyString
  | YError _ c _ => c
  end.

Definition paramsOf (e : Error) : list Value :=
  match e with
  | NativeError _ => []
  | YError _ _ ps => ps
  end.

(** *** The path module *)

Definition segments (p : string) : list string :=
  filter truthy (split "/" p).

Fixpoint dropCommon (from to : list string) : list string * list string :=
  match from, to with
  | x :: from', y :: to' =>
      if String.eqb x y then dropCommon from' to' else (from, to)
  | _, _ => (from, to)
  end.

(** [path.relative(from, to)] on POSIX, for absolute paths without [.] or
    [..] segments: one [..] for each segment of [from] outside the common
    directory, then the segments of [to] below it. An empty path, which the
    runtime resolves against the working directory of the process, is
    outside the model: the statements about [relative] take paths that start
    with a slash. *)
Definition relative (from to : string) : string :=
  let '(up, down) := dropCommon (segments from) (segments to) in
  join "/" (map (fun _ => "..") up ++ down)%list.

End JS.

(** ** The program *)

Record Position := { line : nat; column : nat }.
Record Loc := { start : Position; end_ : Position }.

(** The object pushed by [visitComment]. *)
Record ArchitectureNote := {
  num : string;
  title : string;
  content : string;
  filePath : string;
  loc : Loc;
}.

(** [num.split('.').map(n => parseInt(n, 10))] *)
Definition titleLevels (n : ArchitectureNote) : list JS.number :=
  map JS.parseInt10 (JS.split "." (num n)).

(** The callback of the [reduce] in [_compareArchitectureNotes];
    [nth_error] gives [None] where [bTitleLevels[index]] is [undefined]. *)
Definition compareLevel (bTitleLevels : list JS.number)
    (curOrder : Z) (curALevel : JS.number) (index : nat) : Z :=
  if negb (0 =? curOrder) then curOrder
  else match nth_error bTitleLevels index with
       | None => 1
       | Some bLevel =>
           if JS.gt curALevel bLevel then 1
           else if JS.lt curALevel bLevel then -1
           else 0
       end.

Definition _compareArchitectureNotes (a b : ArchitectureNote) : Z :=
  let aTitleLevels := titleLevels a in
  let bTitleLevels := titleLevels b in
  let result := 0 in
  JS.reduce (compareLevel bTitleLevels) aTitleLevels result.

(** [l1] is [l2] cut short: a proper prefix. *)
Definition strictPrefix {A : Type} (l1 l2 : list A) : Prop :=
  exists x r, l2 = (l1 ++ x :: r)%list.

Import JS.

(** [[^\r\n$]]: inside a class the dollar sign is an ordinary character. *)
Definition titleChar (c : ascii) : bool :=
  negb (Ascii.eqb c CR || Ascii.eqb c LF || Ascii.eqb c "$").

(** [(?:\d+(?:\.(?=\d)|)){1,8}] *)
Definition idPattern : Regex :=
  Repeat 1 (Some 8%nat)
    (Plus (Char isDigit)
     >> Alt (Char (chr ".") >> Lookahead (Char isDigit)) Empty).

(** The marker pattern [^\s*Architecture Note #(ID):\s+(TITLE)], where ID is
    [idPattern] and TITLE is any number of [titleChar]. *)
Definition ARCHITECTURE_NOTE_REGEXP : Regex :=
  Bol >> Star (Char isSpace) >> Lit "Architecture Note #"
  >> Group 1 idPattern >> Char (chr ":") >> Plus (Char isSpace)
  >> Group 2 (Star (Char titleChar)).

(** [(\/\w+)] *)
Definition segmentPattern : Regex :=
  Group 1 (Char (chr "/") >> Plus (Char isWord)).

(** [/#! (\/\w+)+ node/] *)
Definition SHEBANG_REGEXP : Regex :=
  Lit "#! " >> Plus segmentPattern >> Lit " node".

Definition TITLE_LEVEL : string := "#".
Definition BASE : string := ".".

(** A comment node as the visitor sees it: [path.value.value] and
    [path.value.loc]. *)
Record Comment := { value : string; commentLoc : Loc }.

Definition _stripShebang (content : string) : string :=
  if test SHEBANG_REGEXP content
  then "// Shebang commented by jsarch: " ++ content
  else content.

(** The body of [visitComment]: what one comment adds to
    [architectureNotes]. *)
Definition visitComment (filePath : string)
    (architectureNotes : list ArchitectureNote) (path : Comment)
    : list ArchitectureNote :=
  let comment := value path in
  match exec ARCHITECTURE_NOTE_REGEXP comment with
  | Some matches =>
      (architectureNotes ++
       [{| num := group 1 matches;
           title := trim (group 2 matches);
           content := trim (substr (String.length (matched matches)) comment);
           filePath := filePath;
           loc := commentLoc path |}])%list
  | None => architectureNotes
  end.

Definition _linearize {A : Type} (bulks : list (list A)) : list A :=
  fold_left (fun array arrayBulk => (array ++ arrayBulk)%list) bulks [].

(** ['[See in context](' + base + '/' + path.relative(cwd, filePath) + '#L' +
     loc.start.line + '-L' + loc.end.line + ')'] *)
Definition contextLink (base cwd : string) (architectureNote : ArchitectureNote)
    : string :=
  "[See in context](" ++ base ++ "/"
  ++ relative cwd (filePath architectureNote)
  ++ "#L" ++ toString (line (start (loc architectureNote)))
  ++ "-L" ++ toString (line (end_ (loc architectureNote))) ++ ")".

(** The callback of the [reduce] in [jsArch]; [rendered] is its first
    parameter, which the source also calls [content]. *)
Definition appendNote (eol titleLevel base cwd : string)
    (rendered : string) (architectureNote : ArchitectureNote) : string :=
  rendered ++ eol ++ eol
  ++ titleLevel
  ++ join "" (map (fun _ => "#") (split "." (num architectureNote)))
  ++ " " ++ title architectureNote ++ eol ++ eol
  ++ content architectureNote ++ eol ++ eol
  ++ contextLink base cwd architectureNote ++ eol ++ eol.

(** The last [then] of [jsArch]. *)
Definition addHeader (eol titleLevel content : string) : string :=
  if truthy content
  then titleLevel ++ " Architecture Notes" ++ eol ++ eol ++ content
  else content.

Section Services.
(** The injected services and the parser, as the program consumes them:
    - [readFileAsync path] is [fs.readFileAsync(path, 'utf-8')];
    - [glob pattern cwd] is the globbing service;
    - [parseComments content] is [recast.parse(content)] followed by
      [types.visit], giving the comment nodes in the order [visitComment]
      is called on them, or the error [recast.parse] throws;
    - [sort] is the engine's [Array.prototype.sort];
    - [EOL] is the line separator of the host.
    The [log] service only reports and is left out. *)
Variable readFileAsync : string -> Promise string.
Variable glob : string -> string -> Promise (list string).
Variable parseComments : string -> Promise (list Comment).
Variable sort :
  (ArchitectureNote -> ArchitectureNote -> Z) ->
  list ArchitectureNote -> list ArchitectureNote.
Variable EOL : string.

Definition _extractArchitectureNotes (filePath : string)
    : Promise (list ArchitectureNote) :=
  catch_
    (then_
       (then_
          (catch_
             (then_
                (then_ (readFileAsync filePath)
                   (fun content => Fulfilled content))
                (fun content => Fulfilled (_stripShebang content)))
             (fun err =>
                Rejected (wrap err "E_FILE_FAILURE" [VString filePath])))
          (fun content =>
             then_ (parseComments content)
               (fun comments =>
                  Fulfilled (fold_left (visitComment filePath) comments []))))
       (fun architectureNotes => Fulfilled architectureNotes))
    (* the handler names [path], the module, not [filePath] *)
    (fun err => Rejected (wrap err "E_FILE_PARSE_FAILURE" [VPathModule])).

Definition _computePatterns (cwd : string) (patterns : list string)
    : Promise (list string) :=
  then_
    (all (map (fun pattern =>
                 catch_
                   (then_ (glob pattern cwd) (fun files => Fulfilled files))
                   (fun err =>
                      Rejected
                        (wrap err "E_PATTERN_FAILURE" [VString pattern])))
              patterns))
    (fun bulks => Fulfilled (_linearize bulks)).

(** Extraction of all the files: the [Promise.all] of [jsArch] and the
    [_linearize] after it. *)
Definition collect (files : list string) : Promise (list ArchitectureNote) :=
  then_ (all (map _extractArchitectureNotes files))
    (fun bulks => Fulfilled (_linearize bulks)).

Definition render (eol titleLevel base cwd : string)
    (architectureNotes : list ArchitectureNote) : string :=
  fold_left (appendNote eol titleLevel base cwd)
    (sort _compareArchitectureNotes architectureNotes) "".

(** [jsArch]; [eol], [titleLevel] and [base] are [None] when the option
    is not given. *)
Definition jsArch (cwd : string) (patterns : list string)
    (eol titleLevel base : option string) : Promise string :=
  let titleLevel :=
    match titleLevel with Some t => t | None => TITLE_LEVEL end in
  let base := match base with Some b => b | None => BASE end in
  let eol :=
    match eol with
    | Some e => if truthy e then e else EOL
    | None => EOL
    end in
  then_
    (then_
       (then_ (_computePatterns cwd patterns) collect)
       (fun architectureNotes =>
          Fulfilled (render eol titleLevel base cwd architectureNotes)))
    (fun content => Fulfilled (addHeader eol titleLevel content)).
End Services.

(** A note that only carries an id, for statements about the ordering. *)
Definition noteOf (id : string) : ArchitectureNote :=
  {| num := id; title := ""; content := ""; filePath := "";
     loc := {| start := {| line := 1; column := 0 |};
               end_ := {| line := 1; column := 0 |} |} |}.

(** Every arrangement of a list, for statements about all input orders. *)
Fixpoint insertEverywhere {A : Type} (x : A) (l : list A) : list (list A) :=
  match l with
  | [] => [[x]]
  | y :: r => (x :: l) :: map (cons y) (insertEverywhere x r)
  end.

Fixpoint permutations {A : Type} (l : list A) : list (list A) :=
  match l with
  | [] => [[]]
  | x :: r => flat_map (insertEverywhere x) (permutations r)
  end.

(** The five notes of the ordering example. *)
Definition sampleIds : list string := ["1"; "1.1"; "1.2"; "2"; "10"].

(** *** What a pattern derives

    The declarative reading of a pattern as a relation between the state
    before and the state after, against which the matcher is checked. *)

(** [n] iterations of [R], the first [min] of them free to consume nothing. *)
Inductive iterates (R : State -> State -> Prop)
    : nat -> nat -> State -> State -> Prop :=
| iterates_done (x : State) : iterates R 0 0 x x
| iterates_more (min n : nat) (x y z : State) :
    R x y ->
    (min = 0%nat -> endIndex y <> endIndex x) ->
    iterates R (Nat.pred min) n y z ->
    iterates R min (S n) x z.

Fixpoint derives (r : Regex) (x y : State) : Prop :=
  match r with
  | Empty => y = x
  | Char p =>
      exists ch t, rest x = String ch t /\ p ch = true /\ y = advance ch t x
  | Seq r1 r2 => exists m, derives r1 x m /\ derives r2 m y
  | Alt r1 r2 => derives r1 x y \/ derives r2 x y
  | Repeat min max r1 =>
      exists n,
        match max with Some k => (n <= k)%nat | None => True end
        /\ iterates (derives r1) min n x y
  | Lookahead r1 => exists z, derives r1 x z /\ y = withCapturesOf z x
  | Group i r1 => exists z, derives r1 x z /\ y = setCapture i x z
  | Bol => endIndex x = 0%nat /\ y = x
  end.

(** A quantifier [{min,max}] is only accepted with [min <= max]. *)
Fixpoint wellFormed (r : Regex) : bool :=
  match r with
  | Empty | Char _ | Bol => true
  | Seq r1 r2 | Alt r1 r2 => wellFormed r1 && wellFormed r2
  | Repeat min (Some k) r1 => (min <=? k)%nat && wellFormed r1
  | Repeat _ None r1 | Lookahead r1 | Group _ r1 => wellFormed r1
  end.

(** Every character the pattern consumes satisfies [q]. *)
Fixpoint within (q : ascii -> bool) (r : Regex) : Prop :=
  match r with
  | Char p => forall c, p c = true -> q c = true
  | Seq r1 r2 | Alt r1 r2 => within q r1 /\ within q r2
  | Repeat _ _ r1 | Group _ r1 => within q r1
  | Lookahead _ | Empty | Bol => True
  end.

(** [y] is [x] after the text [w], all of whose characters satisfy [q]. *)
Definition spans (q : ascii -> bool) (x y : State) (w : string) : Prop :=
  rest x = w ++ rest y
  /\ endIndex y = (endIndex x + String.length w)%nat
  /\ allChars q w = true.

(** Two states at the same place of the same input; the captures may
    differ. *)
Definition samePlace (x y : State) : Prop :=
  endIndex x = endIndex y /\ rest x = rest y.

(** Number of leading characters that satisfy [p]. *)
Fixpoint run (p : ascii -> bool) (s : string) : nat :=
  match s with
  | String c t => if p c then S (run p t) else O
  | EmptyString => O
  end.

Definition advanceBy (n : nat) (x : State) : State :=
  {| endIndex := endIndex x + n; rest := substr n (rest x);
     captures := captures x |}.

(** The leading characters that satisfy [p]. *)
Definition takeRun (p : ascii -> bool) (s : string) : string :=
  String.substring 0 (run p s) s.

(** What is left after them. *)
Definition dropRun (p : ascii -> bool) (s : string) : string :=
  substr (run p s) s.

Definition anyChar (c : ascii) : bool := true.
Definition idChar (c : ascii) : bool := isDigit c || chr "." c.

(** The parts of a comment the marker pattern matched: white space, the
    literal, the id, the colon, white space taken to its end, the title
    taken to its end, and what is left. *)
Definition markerParts (comment lead id ws t tail : string) : Prop :=
  comment = lead ++ "Architecture Note #" ++ id ++ ":" ++ ws ++ t ++ tail
  /\ allChars isSpace lead = true
  /\ allChars idChar id = true
  /\ ws <> "" /\ allChars isSpace ws = true
  /\ run isSpace (t ++ tail) = 0%nat
  /\ allChars titleChar t = true
  /\ run titleChar tail = 0%nat.

(** A shebang as [SHEBANG_REGEXP] reads it: the path segments are non-empty
    words. *)
Definition isSegment (w : string) : Prop :=
  w <> "" /\ allChars isWord w = true.

Fixpoint pathOf (segs : list string) : string :=
  match segs with
  | [] => ""
  | w :: r => "/" ++ w ++ pathOf r
  end.

Definition shebangText (segs : list string) : string :=
  "#! " ++ pathOf segs ++ " node".

Definition isLineBreak (c : ascii) : bool := Ascii.eqb c CR || Ascii.eqb c LF.
Definition notLineBreak (c : ascii) : bool := negb (isLineBreak c).

(** The title in the words of the specification, for comparison with what
    [visitComment] extracts: what follows the colon and its white space, up
    to the end of the line, trimmed. *)
Definition titleToEndOfLine (afterColon : string) : string :=
  trim (takeRun notLineBreak (dropRun isSpace afterColon)).

(** ** Sample files

    A file system of five files and, standing for the parser, the table of
    what it answers on the text handed to it for each of them. *)

Module Sample.
Definition NL : string := String LF "".

Definition lines (first last : nat) : Loc :=
  {| start := {| line := first; column := 0 |};
     end_ := {| line := last; column := 0 |} |}.

Definition aText : string :=
  "/* Architecture Note #1: Main" ++ NL ++ NL ++ "The entry point. */" ++ NL
  ++ "main();" ++ NL.

(** what follows the shebang in cli.js: the end of the first line and the
    program *)
Definition cliBody : string :=
  NL ++ "/* Architecture Note #2: CLI" ++ NL ++ NL ++ "Reads the options. */"
  ++ NL ++ "run();" ++ NL.

Definition cliText : string := "#! /usr/bin/env node" ++ cliBody.

(** a shebang followed by something that is no program *)
Definition badText : string := "#! /usr/bin/env node" ++ NL ++ ")(" ++ NL.

Definition brokenText : string := "var = ;".

Definition readFileAsync (path : string) : Promise string :=
  if String.eqb path "/repo/src/a.js" then Fulfilled aText
  else if String.eqb path "/repo/bin/cli.js" then Fulfilled cliText
  else if String.eqb path "/repo/bin/bad.js" then Fulfilled badText
  else if String.eqb path "/repo/src/broken.js" then Fulfilled brokenText
  else Rejected (NativeError "ENOENT: no such file or directory").

Definition parseComments (text : string) : Promise (list Comment) :=
  if String.eqb text aText then
    Fulfilled
      [{| value := " Architecture Note #1: Main" ++ NL ++ NL
                   ++ "The entry point. ";
          commentLoc := lines 1 3 |}]
  else if String.eqb text ("// Shebang commented by jsarch: " ++ cliText) then
    Fulfilled
      [{| value := " Shebang commented by jsarch: #! /usr/bin/env node";
          commentLoc := lines 1 1 |};
       {| value := " Architecture Note #2: CLI" ++ NL ++ NL
                   ++ "Reads the options. ";
          commentLoc := lines 2 4 |}]
  else if String.eqb text cliBody then
    Fulfilled
      [{| value := " Architecture Note #2: CLI" ++ NL ++ NL
                   ++ "Reads the options. ";
          commentLoc := lines 2 4 |}]
  else if String.eqb text brokenText then
    Rejected (NativeError "Line 1: Unexpected token =")
  else if String.eqb text ("// Shebang commented by jsarch: " ++ badText) then
    Rejected (NativeError "Line 2: Unexpected token )")
  else Rejected (NativeError "Line 1: Unexpected token").
End Sample.

(** ** Notions for the further properties *)

(** The comparison as a walk over the two lists of levels side by side. *)
Fixpoint walkLevels (aLevels bLevels : list number) : Z :=
  match aLevels, bLevels with
  | [], _ => 0
  | _ :: _, [] => 1
  | x :: aRest, y :: bRest =>
      if gt x y then 1
      else if lt x y then -1
      else walkLevels aRest bRest
  end.

(** One level of an id: a non-empty run of digits. *)
Definition isLevel (piece : string) : bool :=
  truthy piece && allChars isDigit piece.

(** One to eight levels separated by dots. *)
Definition idShape (id : string) : bool :=
  forallb isLevel (split "." id)
  && (List.length (split "." id) <=? 8)%nat.

(** [\d+(?:\.(?=\d)|)], one iteration of [idPattern] *)
Definition levelPattern : Regex :=
  Plus (Char isDigit)
  >> Alt (Char (chr ".") >> Lookahead (Char isDigit)) Empty.

(** A level as the ordering needs it: a number, and not a negative one. *)
Definition isNatural (level : number) : Prop :=
  exists v, level = Some v /\ (0 <= v)%Z.

(** [a] is not after [b]: what [comparefn(a, b) <= 0] says. *)
Definition notAfter (a b : ArchitectureNote) : Prop :=
  _compareArchitectureNotes a b <= 0.

(** A level the runtime holds exactly: a number that is not negative and
    below 2^53. *)
Definition exactLevel (level : number) : Prop :=
  exists v, level = Some v /\ (0 <= v < 2 ^ 53)%Z.

(** No level of the id has more than 15 digits. *)
Definition shortLevels (id : string) : bool :=
  forallb (fun piece => (String.length piece <=? 15)%nat) (split "." id).

(** Every level of the note is a number that is not negative. *)
Definition wellNumbered (n : ArchitectureNote) : Prop :=
  Forall isNatural (titleLevels n).

(** Every level of the note is held exactly by the runtime. *)
Definition exactlyNumbered (n : ArchitectureNote) : Prop :=
  Forall exactLevel (titleLevels n).

(** [n] times the character #. *)
Fixpoint hashes (n : nat) : string :=
  match n with
  | O => ""
  | S n' => "#" ++ hashes n'
  end.

(** Strings one after the other. *)
Fixpoint glue (pieces : list string) : string :=
  match pieces with
  | [] => ""
  | x :: r => x ++ glue r
  end.

(** [eol || EOL] *)
Definition eolOr (EOL : string) (eol : option string) : string :=
  match eol with
  | Some e => if truthy e then e else EOL
  | None => EOL
  end.

(** A path segment: not empty, without slash, and neither [.] nor [..]. *)
Definition isName (w : string) : Prop :=
  w <> "" /\ allChars (fun c => negb (Ascii.eqb c "/")) w = true
  /\ w <> "." /\ w <> "..".

Module SampleGlob.
(** What the globbing service answers in [/repo]. *)
Definition glob (pattern cwd : string) : Promise (list string) :=
  if String.eqb pattern "src/*.js" then Fulfilled ["/repo/src/a.js"]
  else if String.eqb pattern "bin/*.js" then Fulfilled ["/repo/bin/cli.js"]
  else if String.eqb pattern "test/*.js" then Fulfilled []
  else Rejected (NativeError "EACCES: permission denied, scandir").
End SampleGlob.

(** ** The ordering *)

Section Orderer.
Variable bLevels : list number.

Lemma compareLevel_decided (order : Z) (x : number) (i : nat) :
  order <> 0 -> compareLevel bLevels order x i = order.
Proof.
  intros Hne. unfold compareLevel.
  destruct (0 =? order) eqn:E; [apply Z.eqb_eq in E; congruence | reflexivity].
Qed.

Lemma reduce_decided (l : list number) (i : nat) (order : Z) :
  order <> 0 -> reduceFrom (compareLevel bLevels) i l order = order.
Proof.
  revert i. induction l as [|x l IH]; intros i Hne; simpl; [reflexivity|].
  rewrite compareLevel_decided by assumption. now apply IH.
Qed.

Lemma reduce_app (l1 l2 : list number) (i : nat) (order : Z) :
  reduceFrom (compareLevel bLevels) i (l1 ++ l2) order =
  reduceFrom (compareLevel bLevels) (i + List.length l1) l2
    (reduceFrom (compareLevel bLevels) i l1 order).
Proof.
  revert i order. induction l1 as [|x l1 IH]; intros i order; simpl.
  - now rewrite Nat.add_0_r.
  - rewrite IH. f_equal. lia.
Qed.
End Orderer.

Lemma number_not_gt (x : number) : gt x x = false.
Proof.
  destruct x as [v|]; simpl; [|reflexivity].
  rewrite Z.gtb_ltb. apply Z.ltb_irrefl.
Qed.

Lemma number_not_lt (x : number) : lt x x = false.
Proof. destruct x as [v|]; simpl; [apply Z.ltb_irrefl|reflexivity]. Qed.

(** Walking a list against a list it starts never decides anything. *)
Lemma reduce_along_prefix (pre l tail : list number) :
  reduceFrom (compareLevel (pre ++ l ++ tail)) (List.length pre) l 0 = 0.
Proof.
  revert pre. induction l as [|x l IH]; intros pre; simpl; [reflexivity|].
  assert (Hstep : compareLevel (pre ++ x :: l ++ tail) 0 x (List.length pre) = 0).
  { unfold compareLevel. simpl.
    rewrite nth_error_app2 by lia. rewrite Nat.sub_diag. simpl.
    now rewrite number_not_gt, number_not_lt. }
  rewrite Hstep.
  specialize (IH (pre ++ [x])%list).
  rewrite <- app_assoc in IH. simpl in IH.
  rewrite length_app in IH. simpl in IH.
  now rewrite Nat.add_1_r in IH.
Qed.

(** C1: when the id of [a] is a proper prefix of the id of [b], comparing
    [a] with [b] gives 0 and comparing [b] with [a] gives 1, so the two
    results are not opposite. *)
Theorem compare_prefix_pair (a b : ArchitectureNote) :
  strictPrefix (titleLevels a) (titleLevels b) ->
  _compareArchitectureNotes a b = 0
  /\ _compareArchitectureNotes b a = 1
  /\ _compareArchitectureNotes a b <> - _compareArchitectureNotes b a.
Proof.
  intros (x & r & Hb).
  assert (Hab : _compareArchitectureNotes a b = 0).
  { unfold _compareArchitectureNotes, reduce. rewrite Hb.
    apply (reduce_along_prefix [] (titleLevels a) (x :: r)). }
  assert (Hba : _compareArchitectureNotes b a = 1).
  { unfold _compareArchitectureNotes, reduce. rewrite Hb.
    rewrite reduce_app. simpl.
    pose proof (reduce_along_prefix [] (titleLevels a) []) as H0.
    simpl in H0. rewrite app_nil_r in H0. rewrite H0.
    unfold compareLevel at 2. simpl.
    replace (nth_error (titleLevels a) (List.length (titleLevels a)))
      with (@None number)
      by (symmetry; apply nth_error_None; lia).
    apply reduce_decided. discriminate. }
  rewrite Hab, Hba. repeat split; discriminate.
Qed.

Lemma compare_prefix_pair_witness :
  strictPrefix (titleLevels (noteOf "1")) (titleLevels (noteOf "1.2"))
  /\ _compareArchitectureNotes (noteOf "1") (noteOf "1.2") = 0
  /\ _compareArchitectureNotes (noteOf "1.2") (noteOf "1") = 1.
Proof.
  assert (H : strictPrefix (titleLevels (noteOf "1"))
                (titleLevels (noteOf "1.2")))
    by (exists (Some 2), []; reflexivity).
  split; [exact H|].
  destruct (compare_prefix_pair (noteOf "1") (noteOf "1.2") H) as (H1 & H2 & _).
  split; assumption.
Defined.

(** C2: for the notes "1" and "1.1" the comparison gives 0: the walk over
    the single level of "1" finds equal levels and stops, so the ancestor is
    not reported as smaller. *)
Theorem compare_ancestor_descendant :
  _compareArchitectureNotes (noteOf "1") (noteOf "1.1") = 0
  /\ _compareArchitectureNotes (noteOf "1") (noteOf "1.1") <> -1
  /\ _compareArchitectureNotes (noteOf "1.1") (noteOf "1") = 1.
Proof. repeat split; vm_compute; discriminate. Qed.

(** Levels are compared as integers: "10" is after "2". *)
Lemma compare_numeric :
  _compareArchitectureNotes (noteOf "10") (noteOf "2") = 1
  /\ _compareArchitectureNotes (noteOf "2") (noteOf "10") = -1.
Proof. split; reflexivity. Qed.

(** *** Sorting the five sample notes *)

Lemma insertEverywhere_In {A : Type} (x : A) (l1 l2 : list A) :
  In (l1 ++ x :: l2)%list (insertEverywhere x (l1 ++ l2)%list).
Proof.
  induction l1 as [|y l1 IH]; simpl.
  - destruct l2; simpl; auto.
  - right. apply in_map. exact IH.
Qed.

Lemma permutations_complete {A : Type} (l : list A) :
  forall l', Permutation l' l -> In l' (permutations l).
Proof.
  induction l as [|x l IH]; intros l' Hp.
  - apply Permutation_sym, Permutation_nil in Hp. subst. now left.
  - assert (Hin : In x l')
      by (apply (Permutation_in x (Permutation_sym Hp)); now left).
    apply in_split in Hin. destruct Hin as (l1 & l2 & ->).
    simpl. apply in_flat_map. exists (l1 ++ l2)%list. split.
    + apply IH. apply Permutation_cons_inv with (a := x).
      eapply Permutation_trans; [|exact Hp]. apply Permutation_middle.
    + apply insertEverywhere_In.
Qed.

(** With the insertion sort of the older engines every input order of the
    five notes comes out as 1, 1.1, 1.2, 2, 10: that sort only asks
    [comparefn(earlier, later) > 0]. *)
Lemma InsertionSort_sample (l : list ArchitectureNote) :
  Permutation l (map noteOf sampleIds) ->
  map num (InsertionSort _compareArchitectureNotes l) = sampleIds.
Proof.
  intros Hp. apply permutations_complete in Hp.
  assert (Hall : forallb
            (fun l0 =>
               if list_eq_dec string_dec
                    (map num (InsertionSort _compareArchitectureNotes l0))
                    sampleIds
               then true else false)
            (permutations (map noteOf sampleIds)) = true)
    by (vm_compute; reflexivity).
  rewrite forallb_forall in Hall. specialize (Hall l Hp).
  destruct (list_eq_dec string_dec _ sampleIds) as [Heq|]; [exact Heq|discriminate].
Qed.

(** C5: with the sort of the current engine the input order 1.1, 1, 1.2, 2,
    10 is left as it is: the run detection asks [comparefn("1", "1.1")],
    gets 0 and takes the array for ascending. *)
Theorem TimSort_sample_unsorted :
  map num (ArrayTimSort _compareArchitectureNotes
             (map noteOf ["1.1"; "1"; "1.2"; "2"; "10"]))
  = ["1.1"; "1"; "1.2"; "2"; "10"]
  /\ Permutation (map noteOf ["1.1"; "1"; "1.2"; "2"; "10"])
       (map noteOf sampleIds).
Proof.
  split; [vm_compute; reflexivity|].
  simpl. apply perm_swap.
Qed.

(** ** Strings *)

Lemma append_nil_r (s : string) : s ++ "" = s.
Proof. induction s as [|c s IH]; simpl; [reflexivity|now rewrite IH]. Qed.

Lemma append_assoc (a b c : string) : (a ++ b) ++ c = a ++ b ++ c.
Proof. induction a as [|x a IH]; simpl; [reflexivity|now rewrite IH]. Qed.

Lemma length_append (a b : string) :
  String.length (a ++ b) = (String.length a + String.length b)%nat.
Proof. induction a as [|x a IH]; simpl; [reflexivity|now rewrite IH]. Qed.

Lemma substring_append (w r : string) :
  String.substring 0 (String.length w) (w ++ r) = w.
Proof.
  induction w as [|c w IH]; simpl.
  - destruct r; reflexivity.
  - now rewrite IH.
Qed.

Lemma substr_append (w r : string) : substr (String.length w) (w ++ r) = r.
Proof. induction w as [|c w IH]; simpl; [reflexivity|exact IH]. Qed.

Lemma allChars_append (p : ascii -> bool) (a b : string) :
  allChars p (a ++ b) = allChars p a && allChars p b.
Proof.
  induction a as [|c a IH]; simpl; [reflexivity|].
  now rewrite IH, andb_assoc.
Qed.

Lemma allChars_impl (p q : ascii -> bool) (s : string) :
  (forall c, p c = true -> q c = true) ->
  allChars p s = true -> allChars q s = true.
Proof.
  intros Hpq. induction s as [|c s IH]; simpl; [reflexivity|].
  intros H. apply andb_true_iff in H as [Hc Hs].
  apply andb_true_iff. split; auto.
Qed.

(** ** The matcher against the derivations *)

Lemma spans_refl (q : ascii -> bool) (x : State) : spans q x x "".
Proof. repeat split; simpl; auto. Qed.

Lemma spans_trans (q : ascii -> bool) (x y z : State) (w1 w2 : string) :
  spans q x y w1 -> spans q y z w2 -> spans q x z (w1 ++ w2).
Proof.
  intros (Hr1 & Hi1 & Ha1) (Hr2 & Hi2 & Ha2). repeat split.
  - now rewrite Hr1, Hr2, append_assoc.
  - rewrite Hi2, Hi1, length_append. lia.
  - now rewrite allChars_append, Ha1, Ha2.
Qed.

Lemma consumed_spans (q : ascii -> bool) (x y : State) (w : string) :
  spans q x y w -> consumed x y = w.
Proof.
  intros (Hr & Hi & _). unfold consumed. rewrite Hr, Hi.
  replace (endIndex x + String.length w - endIndex x)%nat
    with (String.length w) by lia.
  apply substring_append.
Qed.

Section Spans.
Variable q : ascii -> bool.

Lemma iterates_spans (R : State -> State -> Prop) :
  (forall x y, R x y -> exists w, spans q x y w) ->
  forall min n x y, iterates R min n x y -> exists w, spans q x y w.
Proof.
  intros HR min n x y Hit.
  induction Hit as [x|min n x y z Hxy _ _ (w2 & IH)].
  - exists "". apply spans_refl.
  - destruct (HR _ _ Hxy) as (w1 & H1).
    exists (w1 ++ w2). eapply spans_trans; eauto.
Qed.

(** A derivation consumes a piece of the input, made of the characters
    the pattern allows. *)
Lemma derives_spans (r : Regex) :
  within q r -> forall x y, derives r x y -> exists w, spans q x y w.
Proof.
  induction r as [|p|r1 IH1 r2 IH2|r1 IH1 r2 IH2|min max r1 IH1
                  |r1 IH1|i r1 IH1|]; simpl; intros Hw x y Hd.
  - subst. exists "". apply spans_refl.
  - destruct Hd as (ch & t & Hr & Hp & ->).
    exists (String ch ""). repeat split; simpl.
    + exact Hr.
    + lia.
    + now rewrite (Hw _ Hp).
  - destruct Hw as [Hw1 Hw2]. destruct Hd as (m & Hd1 & Hd2).
    destruct (IH1 Hw1 _ _ Hd1) as (w1 & H1).
    destruct (IH2 Hw2 _ _ Hd2) as (w2 & H2).
    exists (w1 ++ w2). eapply spans_trans; eauto.
  - destruct Hw as [Hw1 Hw2]. destruct Hd as [Hd|Hd]; eauto.
  - destruct Hd as (n & _ & Hit).
    eapply iterates_spans; [|exact Hit]. intros; eauto.
  - destruct Hd as (z & _ & ->). exists "". repeat split; simpl; auto.
  - destruct Hd as (z & Hd & ->).
    destruct (IH1 Hw _ _ Hd) as (w & Hr & Hi & Ha).
    exists w. repeat split; simpl; auto.
  - destruct Hd as [_ ->]. exists "". apply spans_refl.
Qed.
End Spans.

Lemma within_anyChar (r : Regex) : within anyChar r.
Proof. induction r; simpl; auto. Qed.

Lemma derives_advances (r : Regex) (x y : State) :
  derives r x y -> exists w, spans anyChar x y w.
Proof. apply derives_spans, within_anyChar. Qed.

(** The bound an unbounded quantifier runs with is never reached. *)
Lemma iterates_bound (R : State -> State -> Prop) :
  (forall x y, R x y -> exists w, spans anyChar x y w) ->
  forall min n x y, iterates R min n x y ->
  (n <= min + String.length (rest x))%nat.
Proof.
  intros HR min n x y Hit.
  induction Hit as [x|min n x y z Hxy Hne _ IH]; [lia|].
  destruct (HR _ _ Hxy) as (w & Hr & Hi & _).
  rewrite Hr, length_append.
  destruct min as [|k]; simpl in IH.
  - specialize (Hne eq_refl).
    destruct w as [|c w]; simpl in *; [exfalso; apply Hne; lia|lia].
  - lia.
Qed.

Lemma samePlace_refl (x : State) : samePlace x x.
Proof. split; reflexivity. Qed.

Lemma samePlace_trans (x y z : State) :
  samePlace x y -> samePlace y z -> samePlace x z.
Proof. intros [E1 E2] [E3 E4]. split; congruence. Qed.

Lemma iterates_samePlace (R : State -> State -> Prop) :
  (forall x y x', R x y -> samePlace x x' ->
     exists y', R x' y' /\ samePlace y y') ->
  forall min n x y x', iterates R min n x y -> samePlace x x' ->
  exists y', iterates R min n x' y' /\ samePlace y y'.
Proof.
  intros HR min n x y x' Hit. revert x'.
  induction Hit as [x|min n x y z Hxy Hne _ IH]; intros x' Hx'.
  - exists x'. split; [constructor|exact Hx'].
  - destruct (HR _ _ _ Hxy Hx') as (y' & Hxy' & Hy').
    destruct (IH _ Hy') as (z' & Hit' & Hz').
    exists z'. split; [|exact Hz'].
    econstructor; eauto.
    intros E. destruct Hx' as [<- _]. destruct Hy' as [<- _]. auto.
Qed.

Section RepeatMatcherFacts.
Variable m : Matcher.
Variable R : State -> State -> Prop.

Lemma RepeatMatcher_sound :
  (forall x c z, m x c = Some z -> exists y, R x y /\ c y = Some z) ->
  forall max min x c z,
    (min <= max)%nat ->
    RepeatMatcher m min max x c = Some z ->
    exists n y, (n <= max)%nat /\ iterates R min n x y /\ c y = Some z.
Proof.
  intros Hm. induction max as [|max IH]; intros min x c z Hle H.
  - assert (min = 0%nat) by lia. subst. simpl in H.
    exists 0%nat, x. repeat split; [lia|constructor|exact H].
  - simpl in H. destruct min as [|k].
    + destruct (m x _) as [z0|] eqn:E.
      * injection H as ->.
        apply Hm in E. destruct E as (y & HR & Hd). simpl in Hd.
        destruct (endIndex y =? endIndex x)%nat eqn:En; [discriminate|].
        apply Nat.eqb_neq in En.
        apply IH in Hd; [|lia]. destruct Hd as (n & y' & Hn & Hit & Hc).
        exists (S n), y'. repeat split; [lia| |exact Hc].
        econstructor; eauto.
      * exists 0%nat, x. repeat split; [lia|constructor|exact H].
    + apply Hm in H. destruct H as (y & HR & Hd). simpl in Hd.
      apply IH in Hd; [|lia]. destruct Hd as (n & y' & Hn & Hit & Hc).
      exists (S n), y'. repeat split; [lia| |exact Hc].
      econstructor; eauto. discriminate.
Qed.

Lemma RepeatMatcher_complete :
  (forall x y c, R x y ->
     (forall y', samePlace y y' -> exists z, c y' = Some z) ->
     exists z, m x c = Some z) ->
  (forall x y x', R x y -> samePlace x x' ->
     exists y', R x' y' /\ samePlace y y') ->
  forall n min x y,
    iterates R min n x y ->
    forall max c,
      (n <= max)%nat ->
      (forall y', samePlace y y' -> exists z, c y' = Some z) ->
      exists z, RepeatMatcher m min max x c = Some z.
Proof.
  intros Hm HR. induction n as [|n IH]; intros min x y Hit max c Hle Hc.
  - inversion Hit; subst.
    assert (Hx : exists z, c y = Some z) by (apply Hc; split; reflexivity).
    destruct Hx as (z & Hz).
    destruct max as [|max]; simpl; [eauto|].
    destruct (m y _); eauto.
  - inversion Hit as [|min0 n0 x0 mid z0 Hxy Hne Hit']; subst.
    destruct max as [|max]; [lia|]. simpl.
    match goal with
    | |- context [m x ?d] => assert (Hd : exists z, m x d = Some z)
    end.
    { eapply Hm; [exact Hxy|]. intros mid' Hmid.
      destruct (iterates_samePlace R HR _ _ _ _ _ Hit' Hmid)
        as (y' & Hit'' & Hy').
      assert (Hgo : exists z,
                 RepeatMatcher m (Nat.pred min) max mid' c = Some z).
      { eapply IH; [exact Hit''|lia|].
        intros y'' Hy''. apply Hc. eapply samePlace_trans; eauto. }
      destruct min as [|k]; simpl; [|exact Hgo].
      specialize (Hne eq_refl).
      destruct Hmid as [E _]. rewrite <- E.
      apply Nat.eqb_neq in Hne. rewrite Hne. exact Hgo. }
    destruct Hd as (z' & Hz'). rewrite Hz'.
    destruct min; eauto.
Qed.
End RepeatMatcherFacts.

(** Soundness: a success of the matcher is the continuation's success after
    a derivation of the pattern. *)
Theorem matcher_sound (r : Regex) :
  wellFormed r = true ->
  forall x c z, matcher r x c = Some z ->
  exists y, derives r x y /\ c y = Some z.
Proof.
  induction r as [|p|r1 IH1 r2 IH2|r1 IH1 r2 IH2|min max r1 IH1
                  |r1 IH1|i r1 IH1|]; simpl; intros Hwf x c z H.
  - eauto.
  - destruct (rest x) as [|ch t] eqn:Er; [discriminate|].
    destruct (p ch) eqn:Ep; [|discriminate].
    exists (advance ch t x). split; [|exact H]. exists ch, t. auto.
  - apply andb_true_iff in Hwf as [Hwf1 Hwf2].
    apply (IH1 Hwf1) in H. destruct H as (y1 & Hd1 & H).
    apply (IH2 Hwf2) in H. destruct H as (y2 & Hd2 & H).
    exists y2. split; [exists y1; auto|exact H].
  - apply andb_true_iff in Hwf as [Hwf1 Hwf2].
    destruct (matcher r1 x c) as [z0|] eqn:E.
    + injection H as ->. apply (IH1 Hwf1) in E.
      destruct E as (y & Hd & Hc). eauto.
    + apply (IH2 Hwf2) in H. destruct H as (y & Hd & Hc). eauto.
  - assert (Hwf1 : wellFormed r1 = true)
      by (destruct max; [apply andb_true_iff in Hwf; tauto|exact Hwf]).
    apply (RepeatMatcher_sound _ (derives r1) (IH1 Hwf1)) in H.
    + destruct H as (n & y & Hn & Hit & Hc).
      exists y. split; [|exact Hc]. exists n. split; [|exact Hit].
      destruct max; auto.
    + destruct max; [|lia].
      apply andb_true_iff in Hwf as [Hle _]. now apply Nat.leb_le in Hle.
  - destruct (matcher r1 x Some) as [y|] eqn:E; [|discriminate].
    apply (IH1 Hwf) in E. destruct E as (y' & Hd & [= ->]).
    exists (withCapturesOf y x). split; [eauto|exact H].
  - apply (IH1 Hwf) in H. destruct H as (y & Hd & Hc).
    exists (setCapture i x y). split; [eauto|exact Hc].
  - destruct (endIndex x =? 0)%nat eqn:E; [|discriminate].
    apply Nat.eqb_eq in E. eauto.
Qed.

(** Without back-references a derivation does not look at the captures. *)
Lemma derives_samePlace (r : Regex) :
  forall x y x', derives r x y -> samePlace x x' ->
  exists y', derives r x' y' /\ samePlace y y'.
Proof.
  induction r as [|p|r1 IH1 r2 IH2|r1 IH1 r2 IH2|min max r1 IH1
                  |r1 IH1|i r1 IH1|]; simpl; intros x y x' Hd Hx.
  - subst. eauto.
  - destruct Hd as (ch & t & Hr & Hp & ->). destruct Hx as [Ei Er].
    exists (advance ch t x'). split.
    + exists ch, t. repeat split; congruence.
    + split; simpl; congruence.
  - destruct Hd as (m & Hd1 & Hd2).
    destruct (IH1 _ _ _ Hd1 Hx) as (m' & Hd1' & Hm').
    destruct (IH2 _ _ _ Hd2 Hm') as (y' & Hd2' & Hy'). eauto.
  - destruct Hd as [Hd|Hd].
    + destruct (IH1 _ _ _ Hd Hx) as (y' & Hd' & Hy'). eauto.
    + destruct (IH2 _ _ _ Hd Hx) as (y' & Hd' & Hy'). eauto.
  - destruct Hd as (n & Hn & Hit).
    destruct (iterates_samePlace _ IH1 _ _ _ _ _ Hit Hx) as (y' & Hit' & Hy').
    eauto.
  - destruct Hd as (z & Hd & ->).
    destruct (IH1 _ _ _ Hd Hx) as (z' & Hd' & _).
    exists (withCapturesOf z' x'). split; [eauto|exact Hx].
  - destruct Hd as (z & Hd & ->).
    destruct (IH1 _ _ _ Hd Hx) as (z' & Hd' & Hz').
    exists (setCapture i x' z'). split; [eauto|exact Hz'].
  - destruct Hd as [E ->]. destruct Hx as [Ei Er].
    exists x'. repeat split; congruence.
Qed.

(** Completeness: where the pattern has a derivation and the continuation
    accepts at the place it ends, the matcher succeeds (with the first
    success in its priority order). *)
Theorem matcher_complete (r : Regex) :
  forall x y c, derives r x y ->
  (forall y', samePlace y y' -> exists z, c y' = Some z) ->
  exists z, matcher r x c = Some z.
Proof.
  induction r as [|p|r1 IH1 r2 IH2|r1 IH1 r2 IH2|min max r1 IH1
                  |r1 IH1|i r1 IH1|]; simpl; intros x y c Hd Hc.
  - subst. apply Hc, samePlace_refl.
  - destruct Hd as (ch & t & -> & -> & ->). apply Hc, samePlace_refl.
  - destruct Hd as (m & Hd1 & Hd2).
    eapply IH1; [exact Hd1|]. intros m' Hm'.
    destruct (derives_samePlace _ _ _ _ Hd2 Hm') as (y' & Hd2' & Hy').
    eapply IH2; [exact Hd2'|]. intros y'' Hy''.
    apply Hc. eapply samePlace_trans; eauto.
  - destruct Hd as [Hd|Hd].
    + destruct (IH1 _ _ _ Hd Hc) as (z1 & ->). eauto.
    + destruct (matcher r1 x c); eauto.
  - destruct Hd as (n & Hn & Hit).
    eapply (RepeatMatcher_complete _ (derives r1) IH1 (derives_samePlace r1));
      eauto.
    destruct max; [exact Hn|].
    eapply iterates_bound; [|exact Hit]. apply derives_advances.
  - destruct Hd as (z0 & Hd & ->).
    destruct (IH1 x z0 Some Hd) as (z1 & ->); [eauto|].
    apply Hc. split; reflexivity.
  - destruct Hd as (z0 & Hd & ->).
    eapply IH1; [exact Hd|]. intros y' Hy'. apply Hc. exact Hy'.
  - destruct Hd as [E ->]. rewrite E. simpl. apply Hc, samePlace_refl.
Qed.

(** ** Runs of characters under a greedy quantifier *)

Section Runs.
Variable p : ascii -> bool.

Lemma takeRun_dropRun (s : string) : s = takeRun p s ++ dropRun p s.
Proof.
  unfold takeRun, dropRun. induction s as [|c s IH]; simpl; [reflexivity|].
  destruct (p c); simpl; [now rewrite <- IH|reflexivity].
Qed.

Lemma takeRun_all (s : string) : allChars p (takeRun p s) = true.
Proof.
  unfold takeRun. induction s as [|c s IH]; simpl; [reflexivity|].
  destruct (p c) eqn:E; simpl; [now rewrite E|reflexivity].
Qed.

Lemma takeRun_length (s : string) : String.length (takeRun p s) = run p s.
Proof.
  unfold takeRun. induction s as [|c s IH]; simpl; [reflexivity|].
  destruct (p c); simpl; [now rewrite IH|reflexivity].
Qed.

Lemma dropRun_head (s : string) (c : ascii) (t : string) :
  dropRun p s = String c t -> p c = false.
Proof.
  unfold dropRun. induction s as [|a s IH]; simpl; [discriminate|].
  destruct (p a) eqn:E; simpl; [exact IH|].
  intros [= <- _]. exact E.
Qed.

Lemma run_le_length (s : string) : (run p s <= String.length s)%nat.
Proof.
  induction s as [|c s IH]; simpl; [lia|]. destruct (p c); lia.
Qed.

Lemma advanceBy_0 (x : State) : advanceBy 0 x = x.
Proof.
  destruct x as [i r cs]. unfold advanceBy. simpl. now rewrite Nat.add_0_r.
Qed.

Lemma advanceBy_S (n : nat) (x : State) (ch : ascii) (t : string) :
  rest x = String ch t -> advanceBy (S n) x = advanceBy n (advance ch t x).
Proof.
  intros Hr. unfold advanceBy, advance. simpl. rewrite Hr. f_equal. lia.
Qed.

Variable c : Continuation.

Lemma Char_step (x : State) (ch : ascii) (t : string) (d : Continuation) :
  rest x = String ch t -> p ch = true ->
  matcher (Char p) x d = d (advance ch t x).
Proof. intros Hr Hp. simpl. now rewrite Hr, Hp. Qed.

Lemma Char_stuck (x : State) (d : Continuation) :
  run p (rest x) = 0%nat -> matcher (Char p) x d = None.
Proof.
  intros Hrun. simpl. destruct (rest x) as [|ch t]; [reflexivity|].
  simpl in Hrun. destruct (p ch); [discriminate|reflexivity].
Qed.

Lemma advance_moves (x : State) (ch : ascii) (t : string) :
  (endIndex (advance ch t x) =? endIndex x)%nat = false.
Proof. apply Nat.eqb_neq. simpl. lia. Qed.

(** The quantifier takes the whole run when the continuation accepts
    after it. *)
Lemma RepeatMatcher_run (max : nat) :
  forall min x z,
    (min <= run p (rest x))%nat -> (run p (rest x) <= max)%nat ->
    c (advanceBy (run p (rest x)) x) = Some z ->
    RepeatMatcher (matcher (Char p)) min max x c = Some z.
Proof.
  induction max as [|max IH]; intros min x z Hmin Hmax Hc.
  - assert (E : run p (rest x) = 0%nat) by lia.
    rewrite E, advanceBy_0 in Hc. exact Hc.
  - cbn [RepeatMatcher].
    destruct (run p (rest x)) as [|n] eqn:Erun.
    + assert (min = 0%nat) by lia. subst.
      rewrite Char_stuck by assumption.
      now rewrite advanceBy_0 in Hc.
    + destruct (rest x) as [|ch t] eqn:Er; [discriminate|].
      simpl in Erun. destruct (p ch) eqn:Ep; [|discriminate].
      injection Erun as Erun.
      rewrite (Char_step _ _ _ _ Er Ep).
      rewrite advance_moves, andb_false_r.
      rewrite (advanceBy_S _ _ _ _ Er) in Hc.
      assert (Hgo : RepeatMatcher (matcher (Char p)) (Nat.pred min) max
                      (advance ch t x) c = Some z).
      { apply IH; simpl; rewrite ?Erun; [lia|lia|exact Hc]. }
      rewrite Hgo. destruct min; reflexivity.
Qed.

(** It fails when the run is shorter than [min]. *)
Lemma RepeatMatcher_short (max : nat) :
  forall min x,
    (run p (rest x) < min)%nat -> (min <= max)%nat ->
    RepeatMatcher (matcher (Char p)) min max x c = None.
Proof.
  induction max as [|max IH]; intros min x Hmin Hmax; [lia|].
  cbn [RepeatMatcher]. destruct min as [|k]; [lia|].
  destruct (run p (rest x)) as [|n] eqn:Erun.
  - now apply Char_stuck.
  - destruct (rest x) as [|ch t] eqn:Er; [discriminate|].
    simpl in Erun. destruct (p ch) eqn:Ep; [|discriminate].
    injection Erun as Erun.
    rewrite (Char_step _ _ _ _ Er Ep).
    rewrite advance_moves, andb_false_r.
    apply IH; simpl; rewrite ?Erun; lia.
Qed.

Lemma matcher_run (min : nat) (x z : State) :
  (min <= run p (rest x))%nat ->
  c (advanceBy (run p (rest x)) x) = Some z ->
  matcher (Repeat min None (Char p)) x c = Some z.
Proof.
  intros Hmin Hc. simpl. apply RepeatMatcher_run; auto.
  pose proof (run_le_length (rest x)). lia.
Qed.

Lemma matcher_short (min : nat) (x : State) :
  (run p (rest x) < min)%nat ->
  matcher (Repeat min None (Char p)) x c = None.
Proof. intros Hmin. simpl. apply RepeatMatcher_short; lia. Qed.
End Runs.

(** The text a literal derives is the literal. *)
Lemma derives_Lit (s : string) :
  forall x y, derives (Lit s) x y -> spans anyChar x y s.
Proof.
  induction s as [|a s IH]; simpl; intros x y Hd.
  - subst. apply spans_refl.
  - destruct Hd as (m & (ch & t & Hr & Hp & ->) & Hd).
    apply Ascii.eqb_eq in Hp. subst ch.
    apply IH in Hd. destruct Hd as (Hr' & Hi' & _). simpl in *.
    repeat split; simpl.
    + now rewrite Hr, Hr'.
    + lia.
    + clear. induction s; simpl; auto.
Qed.

Lemma Lit_derives (s : string) :
  forall x t, rest x = s ++ t ->
  exists y, derives (Lit s) x y /\ rest y = t
            /\ endIndex y = (endIndex x + String.length s)%nat.
Proof.
  induction s as [|a s IH]; simpl; intros x t Hr.
  - exists x. repeat split; auto.
  - destruct (IH (advance a (s ++ t) x) t eq_refl) as (y & Hd & Hy & Hi).
    exists y. repeat split; [|exact Hy|simpl in Hi; lia].
    exists (advance a (s ++ t) x). split; [|exact Hd].
    exists a, (s ++ t). repeat split; [exact Hr|apply Ascii.eqb_refl].
Qed.

(** ** [exec] *)

Lemma execFrom_Bol (r : Regex) (s : string) :
  forall i, execFrom (Bol >> r) (S i) s = None.
Proof.
  induction s as [|c s IH]; intros i; simpl; [reflexivity|apply IH].
Qed.

(** A pattern that starts with [^] only matches at index 0. *)
Lemma exec_Bol (r : Regex) (s : string) (res : MatchResult) :
  exec (Bol >> r) s = Some res ->
  exists z, matcher r (initial 0 s) Some = Some z
            /\ res = {| index := 0;
                        matched := String.substring 0 (endIndex z) s;
                        groups := captures z |}.
Proof.
  unfold exec. destruct s as [|c s]; simpl.
  - destruct (matcher r (initial 0 "") Some) as [z|] eqn:E; [|discriminate].
    intros [= <-]. exists z. now rewrite Nat.sub_0_r.
  - destruct (matcher r (initial 0 (String c s)) Some) as [z|] eqn:E.
    + intros [= <-]. exists z. now rewrite Nat.sub_0_r.
    + now rewrite execFrom_Bol.
Qed.

(** A match somewhere in the input makes [exec] succeed. *)
Lemma execFrom_found (r : Regex) (before s : string) :
  forall i z,
    matcher r (initial (i + String.length before) s) Some = Some z ->
    exists res, execFrom r i (before ++ s) = Some res.
Proof.
  induction before as [|c before IH]; intros i z H; simpl in *.
  - rewrite Nat.add_0_r in H.
    destruct s; simpl; rewrite H; eauto.
  - destruct (matcher r (initial i (String c (before ++ s))) Some); [eauto|].
    apply (IH (S i) z). now rewrite <- plus_n_Sm in H.
Qed.

(** ** The marker pattern *)

Lemma matcher_Seq_sound (r1 r2 : Regex) (x z : State) (c : Continuation) :
  wellFormed r1 = true ->
  matcher (r1 >> r2) x c = Some z ->
  exists y, derives r1 x y /\ matcher r2 y c = Some z.
Proof. intros Hwf H. simpl in H. now apply matcher_sound in H. Qed.

Lemma titleGroup_match (y : State) :
  matcher (Group 2 (Star (Char titleChar))) y Some
  = Some (setCapture 2 y (advanceBy (run titleChar (rest y)) y)).
Proof.
  change (matcher (Repeat 0 None (Char titleChar)) y
            (fun y' => Some (setCapture 2 y y')) = 
          Some (setCapture 2 y (advanceBy (run titleChar (rest y)) y))).
  apply matcher_run; [lia|reflexivity].
Qed.

Lemma within_idPattern : within idChar idPattern.
Proof.
  unfold idPattern, idChar. simpl. repeat split; intros c H.
  - now rewrite H.
  - rewrite H. apply orb_true_r.
Qed.

Lemma wellFormed_Lit (s : string) : wellFormed (Lit s) = true.
Proof. induction s; simpl; auto. Qed.

Lemma consumed_advanceBy (n : nat) (x : State) :
  consumed x (advanceBy n x) = String.substring 0 n (rest x).
Proof.
  unfold consumed, advanceBy. simpl.
  now replace (endIndex x + n - endIndex x)%nat with n by lia.
Qed.

Lemma run_dropRun (p : ascii -> bool) (s : string) :
  run p (dropRun p s) = 0%nat.
Proof.
  unfold dropRun. induction s as [|c s IH]; simpl; [reflexivity|].
  destruct (p c) eqn:E; simpl; [exact IH|now rewrite E].
Qed.

(** What a match of the marker pattern says about the comment. *)
Lemma marker_match (comment : string) (res : MatchResult) :
  exec ARCHITECTURE_NOTE_REGEXP comment = Some res ->
  exists lead id ws t tail,
    markerParts comment lead id ws t tail
    /\ group 1 res = id /\ group 2 res = t
    /\ matched res = lead ++ "Architecture Note #" ++ id ++ ":" ++ ws ++ t.
Proof.
  intros H. unfold ARCHITECTURE_NOTE_REGEXP, markerParts in *.
  remember "Architecture Note #" as lit eqn:Elit. clear Elit.
  apply exec_Bol in H. destruct H as (z & Hm & ->).
  apply matcher_Seq_sound in Hm; [|reflexivity].
  destruct Hm as (y1 & Hd1 & Hm).
  apply matcher_Seq_sound in Hm; [|apply wellFormed_Lit].
  destruct Hm as (y2 & Hd2 & Hm).
  apply matcher_Seq_sound in Hm; [|reflexivity].
  destruct Hm as (y3 & Hd3 & Hm).
  apply matcher_Seq_sound in Hm; [|reflexivity].
  destruct Hm as (y4 & Hd4 & Hm).
  apply (derives_spans isSpace) in Hd1; [|simpl; auto].
  destruct Hd1 as (lead & Hr1 & Hi1 & Ha1).
  apply derives_Lit in Hd2. destruct Hd2 as (Hr2 & Hi2 & _).
  cbn [derives] in Hd3. destruct Hd3 as (z3 & Hd3 & ->).
  apply (derives_spans idChar _ within_idPattern) in Hd3.
  destruct Hd3 as (id & Hs3).
  pose proof (consumed_spans _ _ _ _ Hs3) as Hid.
  destruct Hs3 as (Hr3 & Hi3 & Ha3).
  cbn [derives] in Hd4. destruct Hd4 as (ch & t4 & Hr4 & Hp4 & ->).
  unfold chr in Hp4. apply Ascii.eqb_eq in Hp4. subst ch.
  change (rest (setCapture 1 y2 z3)) with (rest z3) in Hr4.
  change (rest (initial 0 comment)) with comment in Hr1.
  change (endIndex (initial 0 comment)) with 0%nat in Hi1.
  assert (Hcomment : comment = lead ++ lit ++ id ++ ":" ++ t4)
    by (rewrite Hr1, Hr2, Hr3, Hr4; reflexivity).
  assert (Hend : endIndex z3
                 = (String.length lead + String.length lit
                    + String.length id)%nat) by lia.
  clear Hr1 Hr2 Hr3 Hr4 Hi1 Hi2 Hi3.
  change (matcher (Plus (Char isSpace)) (advance ":" t4 (setCapture 1 y2 z3))
            (fun y => matcher (Group 2 (Star (Char titleChar))) y Some)
          = Some z) in Hm.
  unfold Plus in Hm.
  destruct (run isSpace t4) as [|n1] eqn:Erun.
  { rewrite matcher_short in Hm; [discriminate|].
    cbn [rest advance]. lia. }
  erewrite matcher_run in Hm;
    [|cbn [rest advance]; lia|apply titleGroup_match].
  injection Hm as <-.
  cbn [rest advance] in *. rewrite Erun.
  set (y5 := advanceBy (S n1) (advance ":" t4 (setCapture 1 y2 z3))).
  assert (Hr5 : rest y5 = dropRun isSpace t4)
    by (unfold y5, dropRun; cbn [rest advanceBy advance]; now rewrite Erun).
  assert (Hi5 : endIndex y5 = (S (endIndex z3) + S n1)%nat) by reflexivity.
  assert (Hdrop : substr (S n1) t4 = dropRun isSpace t4)
    by (unfold dropRun; now rewrite Erun).
  rewrite Hdrop.
  set (ws := takeRun isSpace t4).
  set (t := takeRun titleChar (dropRun isSpace t4)).
  set (tail := dropRun titleChar (dropRun isSpace t4)).
  assert (Ht4 : t4 = ws ++ t ++ tail).
  { unfold ws, t, tail. rewrite <- (takeRun_dropRun titleChar).
    apply takeRun_dropRun. }
  assert (Hws : String.length ws = S n1)
    by (unfold ws; now rewrite takeRun_length).
  assert (Ht : String.length t = run titleChar (dropRun isSpace t4))
    by (unfold t; now rewrite takeRun_length).
  exists lead, id, ws, t, tail. repeat split.
  - now rewrite Hcomment, Ht4.
  - exact Ha1.
  - exact Ha3.
  - intros E. rewrite E in Hws. discriminate.
  - apply takeRun_all.
  - unfold t, tail. rewrite <- takeRun_dropRun. apply run_dropRun.
  - apply takeRun_all.
  - apply run_dropRun.
  - unfold group. cbn. exact Hid.
  - unfold group. cbn [groups captures setCapture find fst snd Nat.eqb].
    rewrite consumed_advanceBy, Hr5. reflexivity.
  - cbn [matched endIndex setCapture advanceBy].
    rewrite Hi5, Hend, <- Ht, <- Hws.
    rewrite Hcomment, Ht4.
    replace (lead ++ lit ++ id ++ ":" ++ ws ++ t ++ tail)
      with ((lead ++ lit ++ id ++ ":" ++ ws ++ t) ++ tail)
      by (now rewrite !append_assoc).
    replace (S (String.length lead + String.length lit + String.length id)
             + String.length ws + String.length t)%nat
      with (String.length (lead ++ lit ++ id ++ ":" ++ ws ++ t))
      by (rewrite !length_append; simpl; lia).
    apply substring_append.
Qed.

(** ** The shebang pattern *)

Section CharRuns.
Variable p : ascii -> bool.

Lemma chars_iterate (w : string) :
  forall min x t,
    (min <= String.length w)%nat -> allChars p w = true ->
    rest x = w ++ t ->
    exists y, iterates (derives (Char p)) min (String.length w) x y
              /\ rest y = t
              /\ endIndex y = (endIndex x + String.length w)%nat.
Proof.
  induction w as [|a w IH]; intros min x t Hmin Hall Hr; simpl in *.
  - assert (min = 0%nat) by lia. subst min.
    exists x. split; [apply iterates_done|split; [exact Hr|lia]].
  - apply andb_true_iff in Hall as [Ha Hw].
    destruct (IH (Nat.pred min) (advance a (w ++ t) x) t) as (y & Hit & Hy & Hi);
      [lia|exact Hw|reflexivity|].
    exists y. repeat split; [|exact Hy|simpl in Hi; lia].
    apply iterates_more with (y := advance a (w ++ t) x);
      [|intros _; simpl; lia|exact Hit].
    exists a, (w ++ t). auto.
Qed.

Lemma chars_derive (min : nat) (w : string) (x : State) (t : string) :
  (min <= String.length w)%nat -> allChars p w = true ->
  rest x = w ++ t ->
  exists y, derives (Repeat min None (Char p)) x y
            /\ rest y = t
            /\ endIndex y = (endIndex x + String.length w)%nat.
Proof.
  intros Hmin Hall Hr.
  destruct (chars_iterate w min x t Hmin Hall Hr) as (y & Hit & Hy & Hi).
  exists y. repeat split; auto. exists (String.length w). auto.
Qed.
End CharRuns.

Lemma segment_derives (w : string) (x : State) (t : string) :
  isSegment w -> rest x = "/" ++ w ++ t ->
  exists y, derives segmentPattern x y /\ rest y = t
            /\ endIndex y <> endIndex x.
Proof.
  intros [Hne Hall] Hr.
  destruct (chars_derive isWord 1 w (advance "/" (w ++ t) x) t)
    as (y & Hd & Hy & Hi); [|exact Hall|reflexivity|].
  { destruct w; [congruence|simpl; lia]. }
  exists (setCapture 1 x y). repeat split.
  - exists y. split; [|reflexivity].
    exists (advance "/" (w ++ t) x). split; [|exact Hd].
    exists "/"%char, (w ++ t). auto.
  - exact Hy.
  - simpl in *. lia.
Qed.

Lemma path_iterates (segs : list string) :
  forall min x t,
    (min <= List.length segs)%nat -> Forall isSegment segs ->
    rest x = pathOf segs ++ t ->
    exists n y, iterates (derives segmentPattern) min n x y /\ rest y = t.
Proof.
  induction segs as [|w segs IH]; intros min x t Hmin Hall Hr; simpl in *.
  - assert (min = 0%nat) by lia. subst min.
    exists 0%nat, x. split; [apply iterates_done|exact Hr].
  - inversion Hall as [|? ? Hw Hsegs]; subst.
    rewrite !append_assoc in Hr.
    destruct (segment_derives w x (pathOf segs ++ t) Hw) as (y & Hd & Hy & Hi).
    { exact Hr. }
    destruct (IH (Nat.pred min) y t) as (n & z & Hit & Hz); [lia|auto|auto|].
    exists (S n), z. split; [|exact Hz].
    apply iterates_more with (y := y); [exact Hd|intros _; exact Hi|exact Hit].
Qed.

(** The shebang pattern matches wherever a shebang text occurs. *)
Lemma test_shebang_anywhere (before after : string) (segs : list string) :
  segs <> [] -> Forall isSegment segs ->
  test SHEBANG_REGEXP (before ++ shebangText segs ++ after) = true.
Proof.
  intros Hne Hall.
  assert (Hd : exists y,
             derives SHEBANG_REGEXP
               (initial (0 + String.length before) (shebangText segs ++ after)) y).
  { unfold shebangText, SHEBANG_REGEXP.
    rewrite !append_assoc.
    set (x := initial _ _).
    destruct (Lit_derives "#! " x (pathOf segs ++ " node" ++ after))
      as (y1 & Hd1 & Hy1 & _); [reflexivity|].
    destruct (path_iterates segs 1 y1 (" node" ++ after))
      as (n & y2 & Hit & Hy2);
      [destruct segs; [congruence|simpl; lia]|exact Hall|exact Hy1|].
    destruct (Lit_derives " node" y2 after) as (y3 & Hd3 & _); [exact Hy2|].
    exists y3. cbn [derives].
    exists y1. split; [exact Hd1|].
    exists y2. split; [|exact Hd3].
    exists n. split; [exact I|exact Hit]. }
  destruct Hd as (y & Hd).
  destruct (matcher_complete _ _ _ Some Hd) as (z & Hz); [eauto|].
  destruct (execFrom_found _ _ _ _ _ Hz) as (res & Hres).
  unfold test, exec. now rewrite Hres.
Qed.


(** ** Extraction failures *)

Section Extraction.
Variable readFileAsync : string -> Promise string.
Variable parseComments : string -> Promise (list Comment).

(** A failed read goes through both handlers of the chain. *)
Lemma extract_read_failure (filePath : string) (err : Error) :
  readFileAsync filePath = Rejected err ->
  _extractArchitectureNotes readFileAsync parseComments filePath
  = Rejected (wrap (wrap err "E_FILE_FAILURE" [VString filePath])
                "E_FILE_PARSE_FAILURE" [VPathModule]).
Proof.
  intros Hread. unfold _extractArchitectureNotes.
  rewrite Hread. reflexivity.
Qed.

Lemma extract_read_success (filePath content : string) :
  readFileAsync filePath = Fulfilled content ->
  _extractArchitectureNotes readFileAsync parseComments filePath
  = match parseComments (_stripShebang content) with
    | Fulfilled comments =>
        Fulfilled (fold_left (visitComment filePath) comments [])
    | Rejected err =>
        Rejected (wrap err "E_FILE_PARSE_FAILURE" [VPathModule])
    end.
Proof.
  intros Hread. unfold _extractArchitectureNotes.
  rewrite Hread. simpl.
  destruct (parseComments (_stripShebang content)); reflexivity.
Qed.

(** One rejected extraction rejects the collection: no note of another
    file is returned. *)
Lemma collect_rejected (files : list string) (filePath : string) (e : Error) :
  In filePath files -> _extractArchitectureNotes readFileAsync parseComments filePath = Rejected e ->
  exists e', collect readFileAsync parseComments files = Rejected e'.
Proof.
  intros Hin Hrej. unfold collect.
  assert (Hall : exists e',
             all (map (_extractArchitectureNotes readFileAsync parseComments)
                    files) = Rejected e').
  { induction files as [|f files IH]; [contradiction|].
    simpl.
    destruct (_extractArchitectureNotes readFileAsync parseComments f)
      as [v|e0] eqn:Ef; [|eauto].
    destruct Hin as [->|Hin]; [congruence|].
    destruct (IH Hin) as (e' & ->). simpl. eauto. }
  destruct Hall as (e' & He'). rewrite He'. simpl. eauto.
Qed.
End Extraction.

(** C3: with the files a.js (readable) and missing.js (whose read fails),
    the collection is rejected and returns no note, but the rejection
    carries the code E_FILE_PARSE_FAILURE and the path module as its
    parameter; the E_FILE_FAILURE error naming missing.js is only one of the
    errors it wraps. *)
Theorem read_failure_code :
  collect Sample.readFileAsync Sample.parseComments
    ["/repo/src/a.js"; "/repo/src/missing.js"]
  = Rejected
      (YError
         [NativeError "ENOENT: no such file or directory";
          YError [NativeError "ENOENT: no such file or directory"]
            "E_FILE_FAILURE"
            [VString "/repo/src/missing.js";
             VString "ENOENT: no such file or directory"]]
         "E_FILE_PARSE_FAILURE" [VPathModule])
  /\ Sample.readFileAsync "/repo/src/missing.js"
     = Rejected (NativeError "ENOENT: no such file or directory")
  /\ collect Sample.readFileAsync Sample.parseComments ["/repo/src/a.js"]
     = Fulfilled
         [{| num := "1"; title := "Main"; content := "The entry point.";
             filePath := "/repo/src/a.js"; loc := Sample.lines 1 3 |}].
Proof. repeat split; vm_compute; reflexivity. Qed.

(** C4: for broken.js, which is read and which the parser refuses, the
    extraction is rejected with the code E_FILE_PARSE_FAILURE and wraps the
    parser's error, but its parameters are the path module and the message:
    the path of the file is not among them. *)
Theorem parse_failure_params :
  _extractArchitectureNotes Sample.readFileAsync Sample.parseComments
    "/repo/src/broken.js"
  = Rejected
      (YError [NativeError "Line 1: Unexpected token ="]
         "E_FILE_PARSE_FAILURE"
         [VPathModule; VString "Line 1: Unexpected token ="])
  /\ Sample.readFileAsync "/repo/src/broken.js" = Fulfilled Sample.brokenText
  /\ Sample.parseComments Sample.brokenText
     = Rejected (NativeError "Line 1: Unexpected token =").
Proof. repeat split; vm_compute; reflexivity. Qed.

(** ** Parsing and rendering one note *)

(** C6: the comment "Architecture Note #1.2: Title", two newlines, "Body
    text." gives the note with id 1.2, read as the levels 1 and 2, title
    "Title" and body "Body text.". *)
Theorem parse_sample_comment (filePath : string) (loc : Loc) :
  let note :=
    {| num := "1.2"; title := "Title"; content := "Body text.";
       filePath := filePath; loc := loc |} in
  visitComment filePath []
    {| value := "Architecture Note #1.2: Title" ++ Sample.NL ++ Sample.NL
                ++ "Body text.";
       commentLoc := loc |}
  = [note]
  /\ titleLevels note = [Some 1%Z; Some 2%Z].
Proof. split; vm_compute; reflexivity. Qed.

(** C9: for a note of /repo/src/a.js on lines 10 to 14, with cwd /repo and
    base ".", the context link is "[See in context](./src/a.js#L10-L14)",
    and that is the line the note's rendering ends with. *)
Theorem context_link_sample (id title body eol titleLevel rendered : string)
    (c1 c2 : nat) :
  let note :=
    {| num := id; title := title; content := body;
       filePath := "/repo/src/a.js";
       loc := {| start := {| line := 10; column := c1 |};
                 end_ := {| line := 14; column := c2 |} |} |} in
  contextLink "." "/repo" note = "[See in context](./src/a.js#L10-L14)"
  /\ appendNote eol titleLevel "." "/repo" rendered note
     = rendered ++ eol ++ eol
       ++ titleLevel ++ join "" (map (fun _ => "#") (split "." id))
       ++ " " ++ title ++ eol ++ eol ++ body ++ eol ++ eol
       ++ "[See in context](./src/a.js#L10-L14)" ++ eol ++ eol.
Proof.
  assert (H : contextLink "." "/repo"
                {| num := id; title := title; content := body;
                   filePath := "/repo/src/a.js";
                   loc := {| start := {| line := 10; column := c1 |};
                             end_ := {| line := 14; column := c2 |} |} |}
              = "[See in context](./src/a.js#L10-L14)")
    by (vm_compute; reflexivity).
  split; [exact H|]. unfold appendNote. rewrite H. reflexivity.
Qed.

(** ** Title and body *)

(** The note of a comment the marker pattern matches. *)
Lemma visitComment_parts (filePath : string) (notes : list ArchitectureNote)
    (path : Comment) (res : MatchResult) :
  exec ARCHITECTURE_NOTE_REGEXP (value path) = Some res ->
  exists lead id ws t tail,
    markerParts (value path) lead id ws t tail
    /\ visitComment filePath notes path
       = (notes ++ [{| num := id; title := trim t; content := trim tail;
                       filePath := filePath; loc := commentLoc path |}])%list.
Proof.
  intros H. destruct (marker_match _ _ H)
    as (lead & id & ws & t & tail & Hparts & H1 & H2 & H0).
  exists lead, id, ws, t, tail. split; [exact Hparts|].
  unfold visitComment. rewrite H, H1, H2, H0.
  destruct Hparts as (Hc & _). rewrite Hc at 1.
  replace (lead ++ "Architecture Note #" ++ id ++ ":" ++ ws ++ t ++ tail)
    with ((lead ++ "Architecture Note #" ++ id ++ ":" ++ ws ++ t) ++ tail)
    by (now rewrite !append_assoc).
  now rewrite substr_append.
Qed.

(** C7: for the comment "Architecture Note #1: Cost is $5 a day", a newline
    and "Body", the title extracted is "Cost is", not the text up to the end
    of the marker line, "Cost is $5 a day": the dollar sign ends it, and the
    rest of the line goes to the body with the line after it. *)
Lemma title_stops_at_dollar :
  let afterColon := " Cost is $5 a day" ++ Sample.NL ++ "Body" in
  let comment := "Architecture Note #1:" ++ afterColon in
  exists note,
    visitComment "/repo/src/a.js" []
      {| value := comment; commentLoc := Sample.lines 1 2 |} = [note]
    /\ title note = "Cost is"
    /\ content note = "$5 a day" ++ Sample.NL ++ "Body"
    /\ titleToEndOfLine afterColon = "Cost is $5 a day"
    /\ title note <> titleToEndOfLine afterColon.
Proof.
  eexists. split; [vm_compute; reflexivity|].
  repeat split; try (vm_compute; reflexivity).
  vm_compute. discriminate.
Qed.

(** What the pattern as written takes for title and body: when the marker
    matches, the comment is white space, the literal, the id, the colon,
    then white space taken as far as it goes (line breaks included), then
    the longest run of characters of [titleChar], then a remainder; the
    title is that run trimmed and the body is the remainder trimmed. *)
Theorem title_and_body_of_marker (filePath : string)
    (notes : list ArchitectureNote) (path : Comment) :
  test ARCHITECTURE_NOTE_REGEXP (value path) = true ->
  exists lead id ws t tail,
    markerParts (value path) lead id ws t tail
    /\ visitComment filePath notes path
       = (notes ++ [{| num := id; title := trim t; content := trim tail;
                       filePath := filePath; loc := commentLoc path |}])%list.
Proof.
  unfold test. destruct (exec _ _) as [res|] eqn:E; [|discriminate].
  intros _. eapply visitComment_parts. exact E.
Qed.

Lemma title_and_body_of_marker_witness :
  exists lead id ws t tail,
    markerParts ("Architecture Note #1: Cost is $5 a day") lead id ws t tail
    /\ visitComment "/repo/src/a.js" []
         {| value := "Architecture Note #1: Cost is $5 a day";
            commentLoc := Sample.lines 1 1 |}
       = [{| num := id; title := trim t; content := trim tail;
             filePath := "/repo/src/a.js"; loc := Sample.lines 1 1 |}].
Proof.
  apply (title_and_body_of_marker "/repo/src/a.js" []
           {| value := "Architecture Note #1: Cost is $5 a day";
              commentLoc := Sample.lines 1 1 |}).
  vm_compute. reflexivity.
Defined.

(** No marker in the comment that the commented shebang line makes. *)
Lemma shebang_comment_no_marker (line : string) :
  exec ARCHITECTURE_NOTE_REGEXP (" Shebang commented by jsarch: " ++ line)
  = None.
Proof.
  destruct (exec _ _) as [res|] eqn:E; [|reflexivity]. exfalso.
  destruct (marker_match _ _ E)
    as (lead & id & ws & t & tail & (Hc & Hlead & _) & _).
  destruct lead as [|c1 lead]; [discriminate|].
  simpl in Hc. injection Hc as <- Hc.
  destruct lead as [|c2 lead]; [discriminate|].
  simpl in Hc. injection Hc as <- Hc.
  simpl in Hlead. discriminate.
Qed.

Section ShebangFile.
Variable readFileAsync : string -> Promise string.
Variable parseComments : string -> Promise (list Comment).

(** What the parser is handed for a file that begins with the shebang. *)
Lemma shebang_file_handed (filePath rest : string) :
  readFileAsync filePath = Fulfilled ("#! /usr/bin/env node" ++ rest) ->
  _extractArchitectureNotes readFileAsync parseComments filePath
  = match parseComments
            ("// Shebang commented by jsarch: " ++ "#! /usr/bin/env node"
             ++ rest) with
    | Fulfilled comments =>
        Fulfilled (fold_left (visitComment filePath) comments [])
    | Rejected err =>
        Rejected (wrap err "E_FILE_PARSE_FAILURE" [VPathModule])
    end.
Proof.
  intros Hread. rewrite (extract_read_success _ _ _ _ Hread).
  assert (Ht : test SHEBANG_REGEXP
                 ("" ++ shebangText ["usr"; "bin"; "env"] ++ rest) = true).
  { apply test_shebang_anywhere; [discriminate|].
    repeat constructor; discriminate. }
  change ("" ++ shebangText ["usr"; "bin"; "env"] ++ rest)
    with ("#! /usr/bin/env node" ++ rest) in Ht.
  unfold _stripShebang. rewrite Ht.
  destruct (parseComments _); reflexivity.
Qed.

(** C8: take a file whose first line is "#! /usr/bin/env node" and whose
    remaining text the parser accepts, and a parser for which the commented
    first line is one more comment, the text "// Shebang commented by
    jsarch: #! /usr/bin/env node" without its slashes, among the comments of
    the remaining text. Then the extraction is fulfilled (no
    E_FILE_PARSE_FAILURE), the comment of the first line adds no note, and
    the notes are those of the remaining text: same ids, titles, bodies and
    locations, in the same order. *)
Theorem shebang_file_extraction (filePath rest : string)
    (firstLine : Comment) (before after : list Comment) :
  readFileAsync filePath = Fulfilled ("#! /usr/bin/env node" ++ rest) ->
  run notLineBreak rest = 0%nat ->
  value firstLine = " Shebang commented by jsarch: #! /usr/bin/env node" ->
  parseComments rest = Fulfilled (before ++ after)%list ->
  parseComments
    ("// Shebang commented by jsarch: " ++ "#! /usr/bin/env node" ++ rest)
  = Fulfilled (before ++ firstLine :: after)%list ->
  _extractArchitectureNotes readFileAsync parseComments filePath
  = Fulfilled (fold_left (visitComment filePath) (before ++ after)%list [])
  /\ forall notes, visitComment filePath notes firstLine = notes.
Proof.
  intros Hread _ Hvalue _ Hparse.
  assert (Hnone : forall notes, visitComment filePath notes firstLine = notes).
  { intros notes. unfold visitComment. rewrite Hvalue.
    change " Shebang commented by jsarch: #! /usr/bin/env node"
      with (" Shebang commented by jsarch: " ++ "#! /usr/bin/env node").
    now rewrite shebang_comment_no_marker. }
  split; [|exact Hnone].
  rewrite (shebang_file_handed _ _ Hread), Hparse.
  rewrite !fold_left_app. cbn [fold_left]. now rewrite Hnone.
Qed.
End ShebangFile.

Lemma shebang_file_extraction_witness :
  Sample.readFileAsync "/repo/bin/cli.js"
  = Fulfilled ("#! /usr/bin/env node" ++ Sample.cliBody)
  /\ _extractArchitectureNotes Sample.readFileAsync Sample.parseComments
       "/repo/bin/cli.js"
     = Fulfilled
         [{| num := "2"; title := "CLI"; content := "Reads the options.";
             filePath := "/repo/bin/cli.js"; loc := Sample.lines 2 4 |}].
Proof.
  assert (H : Sample.readFileAsync "/repo/bin/cli.js"
              = Fulfilled ("#! /usr/bin/env node" ++ Sample.cliBody))
    by reflexivity.
  split; [exact H|].
  destruct (shebang_file_extraction Sample.readFileAsync Sample.parseComments
              "/repo/bin/cli.js" Sample.cliBody
              {| value := " Shebang commented by jsarch: #! /usr/bin/env node";
                 commentLoc := Sample.lines 1 1 |}
              []
              [{| value := " Architecture Note #2: CLI" ++ Sample.NL
                           ++ Sample.NL ++ "Reads the options. ";
                  commentLoc := Sample.lines 2 4 |}]
              H) as (-> & _).
  - reflexivity.
  - reflexivity.
  - vm_compute. reflexivity.
  - vm_compute. reflexivity.
  - vm_compute. reflexivity.
Defined.

(** ** Where the shebang is looked for *)

(** C10: the shebang is looked for anywhere in the text. Whenever a
    shebang (the characters [#! ], one or more path segments of word
    characters each led by a slash, then [ node]) occurs at any place of the
    content, the whole content gets the prefix, which puts the first line of
    the file inside a line comment. *)
Theorem shebang_anywhere_is_commented (before after : string)
    (segs : list string) :
  segs <> [] -> Forall isSegment segs ->
  _stripShebang (before ++ shebangText segs ++ after)
  = "// Shebang commented by jsarch: " ++ before ++ shebangText segs ++ after.
Proof.
  intros Hne Hall. unfold _stripShebang.
  now rewrite test_shebang_anywhere.
Qed.

Lemma shebang_anywhere_is_commented_witness :
  _stripShebang ("var usage = '" ++ shebangText ["usr"; "bin"] ++ " cli.js';")
  = "// Shebang commented by jsarch: var usage = '#! /usr/bin node cli.js';".
Proof.
  rewrite (shebang_anywhere_is_commented "var usage = '" " cli.js';" ["usr"; "bin"]).
  - reflexivity.
  - discriminate.
  - repeat constructor; discriminate.
Defined.

(** * Further properties of the program *)

(** ** The comparison as a walk *)

Lemma reduce_walk (aLevels : list number) :
  forall pre bLevels,
    reduceFrom (compareLevel (pre ++ bLevels)) (List.length pre) aLevels 0
    = walkLevels aLevels bLevels.
Proof.
  induction aLevels as [|x aRest IH]; intros pre bLevels; [reflexivity|].
  cbn [reduceFrom]. unfold compareLevel at 2. cbn [Z.eqb negb].
  rewrite nth_error_app2 by lia. rewrite Nat.sub_diag.
  destruct bLevels as [|y bRest]; cbn [nth_error walkLevels].
  - apply reduce_decided. discriminate.
  - destruct (gt x y); [apply reduce_decided; discriminate|].
    destruct (lt x y); [apply reduce_decided; discriminate|].
    specialize (IH (pre ++ [y])%list bRest).
    rewrite <- app_assoc, length_app in IH. cbn [List.app List.length] in IH.
    rewrite Nat.add_1_r in IH. exact IH.
Qed.

Lemma compare_walk (a b : ArchitectureNote) :
  _compareArchitectureNotes a b = walkLevels (titleLevels a) (titleLevels b).
Proof.
  unfold _compareArchitectureNotes, reduce.
  apply (reduce_walk (titleLevels a) [] (titleLevels b)).
Qed.

(** X1: the reduce of the comparison is a walk over the two lists of levels
    side by side: the first pair of levels with [>] or [<] decides (1 or
    -1); when [b] has no level left the result is 1; when [a] has no level
    left the result is 0. *)
Theorem compare_is_walk (a b : ArchitectureNote) :
  _compareArchitectureNotes a b = walkLevels (titleLevels a) (titleLevels b).
Proof. exact (compare_walk a b). Qed.

Lemma gt_lt (x y : number) : gt x y = lt y x.
Proof. destruct x, y; simpl; auto. apply Z.gtb_ltb. Qed.

Lemma lt_asym (x y : number) : lt x y = true -> lt y x = false.
Proof.
  destruct x as [a|], y as [b|]; simpl; auto.
  intros H. apply Z.ltb_lt in H. apply Z.ltb_ge. lia.
Qed.

Lemma walkLevels_range (la : list number) :
  forall lb, walkLevels la lb = -1 \/ walkLevels la lb = 0
             \/ walkLevels la lb = 1.
Proof.
  induction la as [|x la IH]; intros [|y lb]; simpl; auto.
  destruct (gt x y); auto. destruct (lt x y); auto.
Qed.

Lemma walkLevels_opposite (la : list number) :
  forall lb, List.length la = List.length lb ->
  walkLevels lb la = - walkLevels la lb.
Proof.
  induction la as [|x la IH]; intros [|y lb] Hlen; simpl in *;
    try discriminate; [reflexivity|].
  rewrite (gt_lt x y), (gt_lt y x).
  destruct (lt y x) eqn:E1.
  - now rewrite (lt_asym _ _ E1).
  - destruct (lt x y); [reflexivity|]. apply IH. lia.
Qed.

Lemma walkLevels_less (la : list number) :
  forall lb, walkLevels la lb = -1 -> walkLevels lb la = 1.
Proof.
  induction la as [|x la IH]; intros [|y lb]; simpl; try discriminate.
  rewrite (gt_lt x y), (gt_lt y x).
  destruct (lt y x) eqn:E1; [discriminate|].
  destruct (lt x y) eqn:E2; [reflexivity|]. apply IH.
Qed.

Lemma walkLevels_greater (la : list number) :
  forall lb, walkLevels la lb = 1 -> walkLevels lb la <> 1.
Proof.
  induction la as [|x la IH]; intros [|y lb]; simpl; try discriminate.
  rewrite (gt_lt x y), (gt_lt y x).
  destruct (lt y x) eqn:E1.
  - rewrite (lt_asym _ _ E1). discriminate.
  - destruct (lt x y) eqn:E2; [discriminate|]. apply IH.
Qed.

Lemma walkLevels_same (l : list number) : walkLevels l l = 0.
Proof.
  induction l as [|x l IH]; simpl; [reflexivity|].
  now rewrite number_not_gt, number_not_lt.
Qed.

(** X2: the comparison only returns -1, 0 or 1. *)
Theorem compare_range (a b : ArchitectureNote) :
  _compareArchitectureNotes a b = -1
  \/ _compareArchitectureNotes a b = 0
  \/ _compareArchitectureNotes a b = 1.
Proof. rewrite compare_walk. apply walkLevels_range. Qed.

(** X3: for two notes with the same number of levels the two directions of
    the comparison are opposite. *)
Theorem compare_same_depth (a b : ArchitectureNote) :
  List.length (titleLevels a) = List.length (titleLevels b) ->
  _compareArchitectureNotes b a = - _compareArchitectureNotes a b.
Proof. intros H. rewrite !compare_walk. now apply walkLevels_opposite. Qed.

Lemma compare_same_depth_witness :
  _compareArchitectureNotes (noteOf "1.10") (noteOf "1.9") = 1
  /\ _compareArchitectureNotes (noteOf "1.9") (noteOf "1.10") = -1.
Proof.
  pose proof (compare_same_depth (noteOf "1.10") (noteOf "1.9") eq_refl) as H.
  split; [reflexivity|exact H].
Defined.

(** X4: when [a] compares before [b], [b] compares after [a]. *)
Theorem compare_less_converse (a b : ArchitectureNote) :
  _compareArchitectureNotes a b = -1 -> _compareArchitectureNotes b a = 1.
Proof. rewrite !compare_walk. apply walkLevels_less. Qed.

Lemma compare_less_converse_witness :
  _compareArchitectureNotes (noteOf "1.9") (noteOf "1.10.3") = -1
  /\ _compareArchitectureNotes (noteOf "1.10.3") (noteOf "1.9") = 1.
Proof.
  assert (H : _compareArchitectureNotes (noteOf "1.9") (noteOf "1.10.3") = -1)
    by reflexivity.
  split; [exact H|].
  exact (compare_less_converse (noteOf "1.9") (noteOf "1.10.3") H).
Defined.

(** X5: the two directions of the comparison never agree on an order: they
    are never both 1 and never both -1. *)
Theorem compare_no_contradiction (a b : ArchitectureNote) :
  ~ (_compareArchitectureNotes a b = 1 /\ _compareArchitectureNotes b a = 1)
  /\ ~ (_compareArchitectureNotes a b = -1
        /\ _compareArchitectureNotes b a = -1).
Proof.
  rewrite !compare_walk. split; intros [H1 H2].
  - exact (walkLevels_greater _ _ H1 H2).
  - rewrite (walkLevels_less _ _ H1) in H2. discriminate.
Qed.

(** X6: two notes with the same id tie in both directions, whatever the
    id is. *)
Theorem compare_same_id (a b : ArchitectureNote) :
  num a = num b ->
  _compareArchitectureNotes a b = 0 /\ _compareArchitectureNotes b a = 0.
Proof.
  intros H. rewrite !compare_walk. unfold titleLevels. rewrite H.
  split; apply walkLevels_same.
Qed.

Lemma compare_same_id_witness :
  _compareArchitectureNotes (noteOf "1.2")
    {| num := "1.2"; title := "Again"; content := ""; filePath := "/b.js";
       loc := Sample.lines 9 9 |} = 0.
Proof.
  apply (compare_same_id (noteOf "1.2")
           {| num := "1.2"; title := "Again"; content := "";
              filePath := "/b.js"; loc := Sample.lines 9 9 |}).
  reflexivity.
Defined.

(** ** The shape of an id *)

Lemma digit_not_dot (c : ascii) : isDigit c = true -> Ascii.eqb c "." = false.
Proof.
  intros H. destruct (Ascii.eqb_spec c "."); [subst; discriminate|reflexivity].
Qed.

Lemma split_cons (sep : ascii) (s : string) :
  exists h tl, split sep s = h :: tl.
Proof.
  induction s as [|c s (h & tl & IH)]; simpl; eauto.
  destruct (Ascii.eqb c sep); eauto. rewrite IH. eauto.
Qed.

Lemma split_digits (ds w h : string) (tl : list string) :
  allChars isDigit ds = true -> split "." w = h :: tl ->
  split "." (ds ++ w) = (ds ++ h) :: tl.
Proof.
  intros Hds Hw. induction ds as [|c ds IH]; simpl in *; [exact Hw|].
  apply andb_true_iff in Hds as [Hc Hds].
  rewrite (digit_not_dot _ Hc), (IH Hds). reflexivity.
Qed.

Lemma split_digits_dot (ds w : string) :
  allChars isDigit ds = true ->
  split "." (ds ++ "." ++ w) = ds :: split "." w.
Proof.
  intros Hds.
  destruct (split_cons "." ("." ++ w)) as (h & tl & E).
  rewrite (split_digits ds _ h tl Hds E).
  simpl in E. injection E as <- <-. now rewrite append_nil_r.
Qed.

Lemma split_digits_alone (ds : string) :
  allChars isDigit ds = true -> split "." ds = [ds].
Proof.
  intros Hds. rewrite <- (append_nil_r ds) at 1.
  rewrite (split_digits ds "" "" [] Hds eq_refl). now rewrite append_nil_r.
Qed.

Lemma iterates_min (R : State -> State -> Prop) (min n : nat) (x y : State) :
  iterates R min n x y -> (min <= n)%nat.
Proof. induction 1; lia. Qed.

(** [p+] consumes at least one character. *)
Lemma Plus_spans (p : ascii -> bool) (x y : State) :
  derives (Plus (Char p)) x y ->
  exists w, spans p x y w /\ w <> "".
Proof.
  intros (n & _ & Hit).
  inversion Hit as [|min0 n0 x0 mid z0 Hstep _ Hrest]; subst.
  destruct Hstep as (ch & t & Hr & Hp & ->).
  destruct (iterates_spans p (derives (Char p))) with (1:=fun x y H => derives_spans p (Char p) (fun c Hc => Hc) x y H) (2:=Hrest)
    as (w2 & Hr2 & Hi2 & Ha2).
  exists (String ch w2). split; [|discriminate].
  repeat split; simpl in *.
  - now rewrite Hr, Hr2.
  - lia.
  - now rewrite Hp, Ha2.
Qed.

Lemma levelPattern_inv (x y : State) :
  derives levelPattern x y ->
  exists ds w, ds <> "" /\ allChars isDigit ds = true
    /\ spans idChar x y w
    /\ (w = ds
        \/ (w = ds ++ "."
            /\ exists c t, rest y = String c t /\ isDigit c = true)).
Proof.
  intros (m & Hplus & Halt).
  apply Plus_spans in Hplus. destruct Hplus as (ds & (Hr & Hi & Ha) & Hne).
  assert (Hid : allChars idChar ds = true).
  { apply (allChars_impl isDigit); [|exact Ha].
    intros c Hc. unfold idChar. now rewrite Hc. }
  exists ds. destruct Halt as [Hdot|Hnone].
  - destruct Hdot as (m2 & (ch & t & Hrm & Hp & ->) & (z & Hz & ->)).
    unfold chr in Hp. apply Ascii.eqb_eq in Hp. subst ch.
    destruct Hz as (c & t' & Hr2 & Hc & _).
    cbn [rest endIndex advance withCapturesOf] in *.
    exists (ds ++ "."). repeat split; auto.
    + now rewrite Hr, Hrm, append_assoc.
    + rewrite length_append. simpl. lia.
    + rewrite allChars_append, Hid. reflexivity.
    + right. split; [reflexivity|]. eauto.
  - cbn [derives] in Hnone. subst y.
    exists ds. repeat split; auto.
Qed.

(** The text a run of iterations of [levelPattern] consumes, when no digit
    follows it. *)
Lemma levels_shape (min n : nat) (x z : State) :
  iterates (derives levelPattern) min n x z ->
  (forall c t, rest z = String c t -> isDigit c = false) ->
  exists w, spans idChar x z w
    /\ (n = 0%nat -> w = "")
    /\ (n <> 0%nat ->
        forallb isLevel (split "." w) = true
        /\ (List.length (split "." w) <= n)%nat).
Proof.
  intros Hit Hend.
  induction Hit as [x|min n x y z Hstep _ Hit IH].
  - exists "". split; [apply spans_refl|]. split; [reflexivity|congruence].
  - destruct (IH Hend) as (w2 & Hs2 & Hzero & Hpos).
    destruct (levelPattern_inv _ _ Hstep) as (ds & w1 & Hne & Hds & Hs1 & Hcase).
    assert (Hlevel : isLevel ds = true).
    { unfold isLevel. rewrite Hds. destruct ds; [congruence|reflexivity]. }
    exists (w1 ++ w2). split; [eapply spans_trans; eauto|].
    split; [discriminate|]. intros _.
    destruct Hcase as [->|(-> & c & t & Hry & Hc)].
    + destruct n as [|n'].
      * rewrite (Hzero eq_refl), append_nil_r, (split_digits_alone _ Hds).
        simpl. rewrite Hlevel. split; [reflexivity|lia].
      * destruct (Hpos ltac:(discriminate)) as (Hall & Hlen).
        destruct (split_cons "." w2) as (h & tl & E).
        rewrite (split_digits ds w2 h tl Hds E).
        rewrite E in Hall, Hlen. simpl in *.
        apply andb_true_iff in Hall as [Hh Htl].
        split; [|lia]. rewrite Htl, andb_true_r.
        unfold isLevel in *. rewrite allChars_append, Hds.
        apply andb_true_iff in Hh as [_ ->].
        destruct ds; [congruence|reflexivity].
    + rewrite append_assoc.
      destruct n as [|n'].
      * exfalso. destruct Hs2 as (Hr2 & _). rewrite (Hzero eq_refl) in Hr2.
        simpl in Hr2. rewrite Hr2 in Hry.
        rewrite (Hend _ _ Hry) in Hc. discriminate.
      * destruct (Hpos ltac:(discriminate)) as (Hall & Hlen).
        rewrite (split_digits_dot ds w2 Hds). simpl.
        rewrite Hlevel, Hall. split; [reflexivity|lia].
Qed.

(** What [idPattern] consumes before a character that is no digit has the
    shape of an id. *)
Lemma idPattern_shape (x z : State) :
  derives idPattern x z ->
  (forall c t, rest z = String c t -> isDigit c = false) ->
  exists id, spans idChar x z id /\ idShape id = true.
Proof.
  intros (n & Hn & Hit) Hend.
  change (iterates (derives levelPattern) 1 n x z) in Hit.
  pose proof (iterates_min _ _ _ _ _ Hit) as Hmin.
  destruct (levels_shape _ _ _ _ Hit Hend) as (w & Hs & _ & Hpos).
  destruct Hpos as (Hall & Hlen); [lia|].
  exists w. split; [exact Hs|].
  unfold idShape. rewrite Hall. apply Nat.leb_le. lia.
Qed.

(** A match of the marker pattern, with the shape of the id. *)
Lemma marker_match_shaped (comment : string) (res : MatchResult) :
  exec ARCHITECTURE_NOTE_REGEXP comment = Some res ->
  exists lead id ws t tail,
    markerParts comment lead id ws t tail
    /\ idShape id = true
    /\ group 1 res = id /\ group 2 res = t
    /\ matched res = lead ++ "Architecture Note #" ++ id ++ ":" ++ ws ++ t.
Proof.
  intros H.
  destruct (marker_match _ _ H)
    as (lead & id & ws & t & tail & Hparts & H1 & H2 & H0).
  exists lead, id, ws, t, tail.
  split; [exact Hparts|]. split; [|auto].
  (* the derivation behind the match gives the shape of group 1 *)
  unfold ARCHITECTURE_NOTE_REGEXP in H.
  apply exec_Bol in H. destruct H as (z & Hm & ->).
  apply matcher_Seq_sound in Hm; [|reflexivity].
  destruct Hm as (y1 & _ & Hm).
  apply matcher_Seq_sound in Hm; [|apply wellFormed_Lit].
  destruct Hm as (y2 & _ & Hm).
  apply matcher_Seq_sound in Hm; [|reflexivity].
  destruct Hm as (y3 & Hd3 & Hm).
  apply matcher_Seq_sound in Hm; [|reflexivity].
  destruct Hm as (y4 & Hd4 & Hm).
  cbn [derives] in Hd3. destruct Hd3 as (z3 & Hd3 & ->).
  cbn [derives] in Hd4. destruct Hd4 as (ch & t4 & Hr4 & Hp4 & ->).
  unfold chr in Hp4. apply Ascii.eqb_eq in Hp4. subst ch.
  change (rest (setCapture 1 y2 z3)) with (rest z3) in Hr4.
  destruct (idPattern_shape _ _ Hd3) as (id' & Hs & Hshape).
  { intros c t' Hc. rewrite Hr4 in Hc. injection Hc as <- _. reflexivity. }
  apply consumed_spans in Hs.
  change (matcher (Plus (Char isSpace)) (advance ":" t4 (setCapture 1 y2 z3))
            (fun y => matcher (Group 2 (Star (Char titleChar))) y Some)
          = Some z) in Hm.
  unfold Plus in Hm.
  destruct (run isSpace t4) as [|n1] eqn:Erun.
  { rewrite matcher_short in Hm; [discriminate|]. cbn [rest advance]. lia. }
  erewrite matcher_run in Hm;
    [|cbn [rest advance]; lia|apply titleGroup_match].
  injection Hm as <-.
  unfold group in H1. cbn in H1. congruence.
Qed.

Lemma digit_code (c : ascii) : isDigit c = true -> (0 <= digitValue c)%Z.
Proof.
  unfold isDigit, digitValue. intros H.
  apply andb_true_iff in H as [H _]. apply Nat.leb_le in H. lia.
Qed.

Lemma parseDigits_digits (s : string) :
  forall acc v, allChars isDigit s = true -> (0 <= v)%Z ->
  acc = Some v \/ (acc = None /\ s <> "") ->
  exists r, parseDigits acc s = Some r /\ (0 <= r)%Z.
Proof.
  induction s as [|c s IH]; intros acc v Hs Hv Hacc; simpl in *.
  - destruct Hacc as [->|[_ Hne]]; [eauto|congruence].
  - apply andb_true_iff in Hs as [Hc Hs]. rewrite Hc.
    pose proof (digit_code _ Hc) as Hd.
    destruct Hacc as [->|[-> _]].
    + apply (IH _ (10 * v + digitValue c)%Z); [exact Hs|lia|now left].
    + apply (IH _ (10 * 0 + digitValue c)%Z); [exact Hs|lia|now left].
Qed.

Lemma parseInt10_digit_head (c : ascii) (t : string) :
  isDigit c = true -> parseInt10 (String c t) = parseDigits None (String c t).
Proof.
  destruct c as [[|] [|] [|] [|] [|] [|] [|] [|]];
    intros H; try discriminate H; reflexivity.
Qed.

(** A level parses to a number that is not negative. *)
Lemma parseInt10_level (piece : string) :
  isLevel piece = true ->
  exists v, parseInt10 piece = Some v /\ (0 <= v)%Z.
Proof.
  unfold isLevel. intros H. apply andb_true_iff in H as [Hne Hall].
  destruct piece as [|c t]; [discriminate|].
  assert (Hc : isDigit c = true)
    by (simpl in Hall; apply andb_true_iff in Hall; tauto).
  rewrite (parseInt10_digit_head _ _ Hc).
  apply (parseDigits_digits _ None 0%Z Hall); [lia|].
  right. split; [reflexivity|discriminate].
Qed.

Lemma idShape_levels (id : string) :
  idShape id = true ->
  let levels := map parseInt10 (split "." id) in
  (1 <= List.length levels <= 8)%nat /\ Forall isNatural levels.
Proof.
  unfold idShape. intros H. apply andb_true_iff in H as [Hall Hlen].
  apply Nat.leb_le in Hlen. cbn zeta. rewrite length_map. split.
  - destruct (split_cons "." id) as (h & tl & E). rewrite E in *. simpl in *. lia.
  - apply Forall_forall. intros l Hin. apply in_map_iff in Hin.
    destruct Hin as (piece & <- & Hin).
    rewrite forallb_forall in Hall. apply parseInt10_level. auto.
Qed.

(** A note with a well-shaped id has levels that are numbers. *)
Lemma idShape_wellNumbered (n : ArchitectureNote) :
  idShape (num n) = true -> wellNumbered n.
Proof. intros H. exact (proj2 (idShape_levels _ H)). Qed.

Lemma note_levels (file : string) (path : Comment) (note : ArchitectureNote) :
  In note (visitComment file [] path) ->
  (1 <= List.length (titleLevels note) <= 8)%nat
  /\ Forall isNatural (titleLevels note)
  /\ filePath note = file
  /\ loc note = commentLoc path.
Proof.
  unfold visitComment.
  destruct (exec ARCHITECTURE_NOTE_REGEXP (value path)) as [res|] eqn:E;
    [|contradiction].
  destruct (marker_match_shaped _ _ E)
    as (lead & id & ws & t & tail & _ & Hshape & H1 & _).
  intros [<-|[]]. unfold titleLevels. cbn [num filePath loc].
  rewrite H1. destruct (idShape_levels _ Hshape). auto.
Qed.

Lemma digit_below_ten (c : ascii) :
  isDigit c = true -> (0 <= digitValue c <= 9)%Z.
Proof.
  unfold isDigit, digitValue. intros H.
  apply andb_true_iff in H as [H1 H2].
  apply Nat.leb_le in H1, H2. change (code "0") with 48%nat in H1.
  change (code "9") with 57%nat in H2. lia.
Qed.

(** Reading [n] digits after a value below [10 ^ k] gives a value below
    [10 ^ (k + n)]. *)
Lemma parseDigits_below (s : string) :
  forall acc v k, allChars isDigit s = true -> (0 <= k)%Z ->
  (0 <= v < 10 ^ k)%Z ->
  acc = Some v \/ (acc = None /\ v = 0%Z /\ s <> "") ->
  exists r, parseDigits acc s = Some r
            /\ (0 <= r < 10 ^ (k + Z.of_nat (String.length s)))%Z.
Proof.
  induction s as [|c s IH]; intros acc v k Hs Hk Hv Hacc.
  - destruct Hacc as [->|(_ & _ & Hne)]; [|congruence].
    exists v. cbn [parseDigits String.length].
    rewrite Z.add_0_r. auto.
  - cbn [allChars] in Hs. apply andb_true_iff in Hs as [Hc Hs].
    cbn [parseDigits String.length]. rewrite Hc.
    pose proof (digit_below_ten _ Hc) as Hd.
    assert (Hstep : (0 <= 10 * v + digitValue c < 10 ^ (k + 1))%Z).
    { rewrite Z.pow_add_r by lia. change (10 ^ 1)%Z with 10%Z. lia. }
    replace (k + Z.of_nat (S (String.length s)))%Z
      with ((k + 1) + Z.of_nat (String.length s))%Z by lia.
    destruct Hacc as [->|(-> & -> & _)].
    + apply (IH _ (10 * v + digitValue c)%Z (k + 1)%Z);
        [exact Hs|lia|exact Hstep|now left].
    + apply (IH _ (10 * 0 + digitValue c)%Z (k + 1)%Z);
        [exact Hs|lia|exact Hstep|now left].
Qed.

(** A level of at most 15 digits parses to a number below 2^53. *)
Lemma parseInt10_short_level (piece : string) :
  isLevel piece = true -> (String.length piece <= 15)%nat ->
  exactLevel (parseInt10 piece).
Proof.
  unfold isLevel. intros H Hlen. apply andb_true_iff in H as [Hne Hall].
  destruct piece as [|c t]; [discriminate|].
  assert (Hc : isDigit c = true)
    by (simpl in Hall; apply andb_true_iff in Hall; tauto).
  rewrite (parseInt10_digit_head _ _ Hc).
  destruct (parseDigits_below (String c t) None 0%Z 0%Z Hall)
    as (r & -> & Hr); [lia|cbn; lia| |].
  { right. repeat split. discriminate. }
  exists r. split; [reflexivity|].
  assert (10 ^ (0 + Z.of_nat (String.length (String c t)))
          <= 10 ^ 15)%Z by (apply Z.pow_le_mono_r; lia).
  assert (10 ^ 15 < 2 ^ 53)%Z by reflexivity. lia.
Qed.

(** A note whose id is well shaped, with levels of at most 15 digits, has
    levels that the runtime holds exactly. *)
Lemma shortLevels_exactlyNumbered (n : ArchitectureNote) :
  idShape (num n) = true -> shortLevels (num n) = true -> exactlyNumbered n.
Proof.
  unfold idShape, shortLevels, exactlyNumbered, titleLevels.
  intros H Hshort. apply andb_true_iff in H as [Hall _].
  rewrite forallb_forall in Hall, Hshort.
  apply Forall_forall. intros l Hin. apply in_map_iff in Hin.
  destruct Hin as (piece & <- & Hin).
  apply parseInt10_short_level; [auto|].
  apply Nat.leb_le. auto.
Qed.

Lemma exactLevel_isNatural (level : number) :
  exactLevel level -> isNatural level.
Proof. intros (v & -> & Hv). exists v. split; [reflexivity|lia]. Qed.

Lemma exactlyNumbered_wellNumbered (n : ArchitectureNote) :
  exactlyNumbered n -> wellNumbered n.
Proof.
  unfold exactlyNumbered, wellNumbered. apply Forall_impl.
  exact exactLevel_isNatural.
Qed.




(** ** Reading the parts of a comment back *)

Lemma append_inv_head (a x y : string) : a ++ x = a ++ y -> x = y.
Proof. induction a as [|c a IH]; simpl; intros H; [exact H|]. injection H. auto. Qed.

(** A run of [p] followed by something that does not start with [p] can be
    cut in one way only. *)
Lemma run_cut_unique (p : ascii -> bool) (a : string) :
  forall a' r r',
    allChars p a = true -> allChars p a' = true ->
    run p r = 0%nat -> run p r' = 0%nat ->
    a ++ r = a' ++ r' -> a = a' /\ r = r'.
Proof.
  induction a as [|c a IH]; intros [|c' a'] r r' Ha Ha' Hr Hr' E; simpl in *.
  - auto.
  - exfalso. subst r. simpl in Hr.
    apply andb_true_iff in Ha' as [Hc _]. rewrite Hc in Hr. discriminate.
  - exfalso. subst r'. simpl in Hr'.
    apply andb_true_iff in Ha as [Hc _]. rewrite Hc in Hr'. discriminate.
  - injection E as <- E.
    apply andb_true_iff in Ha as [_ Ha].
    apply andb_true_iff in Ha' as [_ Ha'].
    destruct (IH a' r r' Ha Ha' Hr Hr' E) as [-> ->]. auto.
Qed.


(** ** Recognising a marker *)









(** X12: when what follows the literal is not an id of one to eight levels
    (more than eight levels, a dot at the end, two dots in a row, no digit
    at all), the comment adds no note. *)
Theorem malformed_id_ignored (file : string) (notes : list ArchitectureNote)
    (location : Loc) (lead id after : string) :
  allChars isSpace lead = true -> allChars idChar id = true ->
  run idChar after = 0%nat -> idShape id = false ->
  visitComment file notes
    {| value := lead ++ "Architecture Note #" ++ id ++ after;
       commentLoc := location |}
  = notes.
Proof.
  intros Hlead Hid Hafter Hshape. unfold visitComment. cbn [value].
  destruct (exec _ _) as [res|] eqn:E; [|reflexivity]. exfalso.
  destruct (marker_match_shaped _ _ E)
    as (lead' & id' & ws & t & tail & (Hc & Hlead' & Hid' & _) & Hshape' & _).
  destruct (run_cut_unique isSpace lead lead'
              ("Architecture Note #" ++ id ++ after)
              ("Architecture Note #" ++ id' ++ ":" ++ ws ++ t ++ tail)
              Hlead Hlead' eq_refl eq_refl Hc) as [_ E1].
  apply (append_inv_head "Architecture Note #") in E1.
  destruct (run_cut_unique idChar id id' after (":" ++ ws ++ t ++ tail)
              Hid Hid' Hafter eq_refl E1) as [<- _].
  congruence.
Qed.

Lemma malformed_id_ignored_witness :
  visitComment "/repo/src/a.js" []
    {| value := " Architecture Note #1.2.3.4.5.6.7.8.9: Too deep";
       commentLoc := Sample.lines 1 1 |} = []
  /\ visitComment "/repo/src/a.js" []
       {| value := "Architecture Note #1.: Dangling dot";
          commentLoc := Sample.lines 1 1 |} = [].
Proof.
  split.
  - apply (malformed_id_ignored "/repo/src/a.js" [] (Sample.lines 1 1)
             " " "1.2.3.4.5.6.7.8.9" ": Too deep"); reflexivity.
  - apply (malformed_id_ignored "/repo/src/a.js" [] (Sample.lines 1 1)
             "" "1." ": Dangling dot"); reflexivity.
Defined.

Lemma trimStart_spaces (lead r : string) :
  allChars isSpace lead = true -> run isSpace r = 0%nat ->
  trimStart (lead ++ r) = r.
Proof.
  intros Hlead Hr. induction lead as [|c lead IH]; simpl in *.
  - destruct r as [|c r]; [reflexivity|]. simpl in *.
    destruct (isSpace c); [discriminate|reflexivity].
  - apply andb_true_iff in Hlead as [-> Hlead]. auto.
Qed.

Lemma prefix_append (a b : string) : String.prefix a (a ++ b) = true.
Proof.
  induction a as [|c a IH]; simpl; [destruct b; reflexivity|].
  destruct (ascii_dec c c); [exact IH|congruence].
Qed.

(** X13: a comment that does not start, after white space, with the
    literal adds no note. *)
Theorem no_marker_no_note (file : string) (notes : list ArchitectureNote)
    (path : Comment) :
  String.prefix "Architecture Note #" (trimStart (value path)) = false ->
  visitComment file notes path = notes.
Proof.
  intros Hpre. unfold visitComment.
  destruct (exec _ _) as [res|] eqn:E; [|reflexivity]. exfalso.
  destruct (marker_match _ _ E)
    as (lead & id & ws & t & tail & (Hc & Hlead & _) & _).
  rewrite Hc in Hpre.
  rewrite (trimStart_spaces lead
             ("Architecture Note #" ++ id ++ ":" ++ ws ++ t ++ tail)
             Hlead eq_refl) in Hpre.
  rewrite prefix_append in Hpre. discriminate.
Qed.

Lemma no_marker_no_note_witness :
  visitComment "/repo/src/a.js" []
    {| value := " just a note"; commentLoc := Sample.lines 1 1 |} = []
  /\ visitComment "/repo/src/a.js" []
       {| value := " See Architecture Note #1: Main";
          commentLoc := Sample.lines 1 1 |} = [].
Proof.
  split; apply no_marker_no_note; reflexivity.
Defined.

(** ** Where the shebang pattern matches *)

(** A success of [exec] is a success of the matcher at some index. *)
Lemma execFrom_sound (r : Regex) (s : string) :
  forall i res, execFrom r i s = Some res ->
  exists before s' z,
    s = before ++ s'
    /\ matcher r (initial (i + String.length before) s') Some = Some z.
Proof.
  induction s as [|c s IH]; intros i res H; simpl in H.
  - destruct (matcher r (initial i "") Some) as [z|] eqn:E; [|discriminate].
    exists "", "", z. split; [reflexivity|]. simpl. now rewrite Nat.add_0_r.
  - destruct (matcher r (initial i (String c s)) Some) as [z|] eqn:E.
    + exists "", (String c s), z. split; [reflexivity|].
      simpl. now rewrite Nat.add_0_r.
    + destruct (IH _ _ H) as (before & s' & z & -> & Hz).
      exists (String c before), s', z. split; [reflexivity|].
      simpl. now rewrite <- plus_n_Sm.
Qed.

Lemma segment_inv (x y : State) :
  derives segmentPattern x y ->
  exists w, isSegment w /\ rest x = "/" ++ w ++ rest y.
Proof.
  intros (z & (m & (ch & t & Hr & Hp & ->) & Hplus) & ->).
  unfold chr in Hp. apply Ascii.eqb_eq in Hp. subst ch.
  apply Plus_spans in Hplus. destruct Hplus as (w & (Hr2 & _ & Ha) & Hne).
  exists w. split; [split; assumption|].
  cbn [rest advance setCapture] in *. now rewrite Hr, Hr2.
Qed.

Lemma segments_inv (min n : nat) (x y : State) :
  iterates (derives segmentPattern) min n x y ->
  exists segs, List.length segs = n /\ Forall isSegment segs
               /\ rest x = pathOf segs ++ rest y.
Proof.
  induction 1 as [x|min n x y z Hstep _ _ (segs & Hlen & Hall & Hr)].
  - exists []. auto.
  - destruct (segment_inv _ _ Hstep) as (w & Hw & Hrx).
    exists (w :: segs). repeat split; simpl; auto.
    now rewrite Hrx, Hr, !append_assoc.
Qed.

(** The pattern only matches a shebang text. *)
Lemma test_shebang_inv (content : string) :
  test SHEBANG_REGEXP content = true ->
  exists before segs after,
    segs <> [] /\ Forall isSegment segs
    /\ content = before ++ shebangText segs ++ after.
Proof.
  unfold test, exec.
  destruct (execFrom SHEBANG_REGEXP 0 content) as [res|] eqn:E;
    [|discriminate]. intros _.
  destruct (execFrom_sound _ _ _ _ E) as (before & s' & z & -> & Hz).
  apply matcher_sound in Hz; [|reflexivity].
  destruct Hz as (y & Hd & _).
  unfold SHEBANG_REGEXP in Hd. cbn [derives] in Hd.
  destruct Hd as (y1 & Hd1 & y2 & (n & _ & Hit) & Hd3).
  apply derives_Lit in Hd1. destruct Hd1 as (Hr1 & _).
  apply derives_Lit in Hd3. destruct Hd3 as (Hr3 & _).
  pose proof (iterates_min _ _ _ _ _ Hit) as Hmin.
  destruct (segments_inv _ _ _ _ Hit) as (segs & Hlen & Hall & Hr2).
  exists before, segs, (rest y). repeat split.
  - intros ->. simpl in Hlen. lia.
  - exact Hall.
  - f_equal. cbn [rest initial] in Hr1. unfold shebangText.
    now rewrite Hr1, Hr2, Hr3, !append_assoc.
Qed.

(** X14: the content is only changed when a shebang text occurs in it, and
    the change is the prefix put in front of the whole content. *)
Theorem stripShebang_changes_only_shebang (content : string) :
  _stripShebang content <> content ->
  _stripShebang content = "// Shebang commented by jsarch: " ++ content
  /\ exists before segs after,
       segs <> [] /\ Forall isSegment segs
       /\ content = before ++ shebangText segs ++ after.
Proof.
  unfold _stripShebang.
  destruct (test SHEBANG_REGEXP content) eqn:E; [|congruence].
  intros _. split; [reflexivity|]. now apply test_shebang_inv.
Qed.

Lemma stripShebang_changes_only_shebang_witness :
  exists before segs after,
    segs <> [] /\ Forall isSegment segs
    /\ "#! /usr/bin/env node" ++ Sample.NL ++ "run();"
       = before ++ shebangText segs ++ after.
Proof.
  apply (stripShebang_changes_only_shebang
           ("#! /usr/bin/env node" ++ Sample.NL ++ "run();")).
  vm_compute. discriminate.
Defined.

Lemma no_hash_no_shebang (before after : string) (segs : list string) :
  allChars (fun c => negb (Ascii.eqb c "#"))
    (before ++ shebangText segs ++ after) = false.
Proof.
  rewrite allChars_append. unfold shebangText. simpl.
  apply andb_false_r.
Qed.

(** X15: a content without the character # is returned as it is. *)
Theorem stripShebang_without_hash (content : string) :
  allChars (fun c => negb (Ascii.eqb c "#")) content = true ->
  _stripShebang content = content.
Proof.
  intros H. unfold _stripShebang.
  destruct (test SHEBANG_REGEXP content) eqn:E; [|reflexivity].
  apply test_shebang_inv in E.
  destruct E as (before & segs & after & _ & _ & ->).
  rewrite no_hash_no_shebang in H. discriminate.
Qed.

Lemma stripShebang_without_hash_witness :
  _stripShebang ("module.exports = run;" ++ Sample.NL)
  = "module.exports = run;" ++ Sample.NL.
Proof.
  apply stripShebang_without_hash. vm_compute. reflexivity.
Defined.

(** ** Flattening and [Promise.all] *)

Lemma linearize_from {A : Type} (bulks : list (list A)) :
  forall acc,
    fold_left (fun array arrayBulk => (array ++ arrayBulk)%list) bulks acc
    = (acc ++ List.concat bulks)%list.
Proof.
  induction bulks as [|b bulks IH]; intros acc; simpl.
  - now rewrite app_nil_r.
  - now rewrite IH, app_assoc.
Qed.

Lemma linearize_is_concat {A : Type} (bulks : list (list A)) :
  _linearize bulks = List.concat bulks.
Proof. unfold _linearize. now rewrite linearize_from. Qed.

(** X27: flattening keeps every element, in the order of the bulks and
    inside each bulk: it is the concatenation. *)
Theorem linearize_concat {A : Type} (bulks : list (list A)) :
  _linearize bulks = List.concat bulks.
Proof. exact (linearize_is_concat bulks). Qed.

Lemma all_fulfilled {A : Type} (ps : list (Promise A)) (vs : list A) :
  Forall2 (fun p v => p = Fulfilled v) ps vs -> all ps = Fulfilled vs.
Proof.
  induction 1 as [|p v ps vs Hp _ IH]; [reflexivity|].
  subst p. simpl. now rewrite IH.
Qed.

Lemma all_fulfilled_inv {A : Type} (ps : list (Promise A)) :
  forall vs, all ps = Fulfilled vs ->
  Forall2 (fun p v => p = Fulfilled v) ps vs.
Proof.
  induction ps as [|p ps IH]; intros vs H; simpl in H.
  - injection H as <-. constructor.
  - destruct p as [v|e]; [|discriminate].
    destruct (all ps) as [vs'|e'] eqn:E; [|discriminate].
    injection H as <-. constructor; auto.
Qed.

Lemma all_rejected_inv {A : Type} (ps : list (Promise A)) (e : Error) :
  all ps = Rejected e -> In (Rejected e) ps.
Proof.
  induction ps as [|p ps IH]; simpl; [discriminate|].
  destruct p as [v|e0].
  - destruct (all ps) as [vs|e'] eqn:E; [discriminate|].
    intros [= ->]. right. auto.
  - intros [= ->]. now left.
Qed.

Lemma all_rejected {A : Type} (ps : list (Promise A)) (e : Error) :
  In (Rejected e) ps -> exists e', all ps = Rejected e'.
Proof.
  induction ps as [|p ps IH]; [contradiction|].
  intros [->|Hin]; simpl; [eauto|].
  destruct p as [v|e0]; [|eauto].
  destruct (IH Hin) as (e' & ->). simpl. eauto.
Qed.

(** ** One file *)

Lemma visitComment_adds (file : string) (notes : list ArchitectureNote)
    (path : Comment) :
  visitComment file notes path = (notes ++ visitComment file [] path)%list.
Proof.
  unfold visitComment.
  destruct (exec ARCHITECTURE_NOTE_REGEXP (value path));
    [reflexivity|now rewrite app_nil_r].
Qed.

Lemma visit_comments (file : string) (comments : list Comment) :
  forall notes,
    fold_left (visitComment file) comments notes
    = (notes ++ flat_map (visitComment file []) comments)%list.
Proof.
  induction comments as [|c comments IH]; intros notes; simpl.
  - now rewrite app_nil_r.
  - now rewrite IH, visitComment_adds, app_assoc.
Qed.

Section OneFile.
Variable readFileAsync : string -> Promise string.
Variable parseComments : string -> Promise (list Comment).

Lemma extract_rejected_inv (file : string) (e : Error) :
  _extractArchitectureNotes readFileAsync parseComments file = Rejected e ->
  codeOf e = "E_FILE_PARSE_FAILURE"
  /\ hd_error (paramsOf e) = Some VPathModule
  /\ ((exists err, readFileAsync file = Rejected err
                   /\ In err (wrappedErrorsOf e))
      \/ (exists content err,
            readFileAsync file = Fulfilled content
            /\ parseComments (_stripShebang content) = Rejected err
            /\ In err (wrappedErrorsOf e))).
Proof.
  intros H. destruct (readFileAsync file) as [content|err] eqn:Er.
  - rewrite (extract_read_success _ _ _ _ Er) in H.
    destruct (parseComments (_stripShebang content)) as [cs|err] eqn:Ep;
      [discriminate|].
    injection H as <-. unfold wrap. cbn [codeOf paramsOf wrappedErrorsOf].
    repeat split.
    + destruct (truthy (message err) && _); reflexivity.
    + right. exists content, err.
      split; [reflexivity|]. split; [exact Ep|].
      apply in_or_app. right. now left.
  - rewrite (extract_read_failure _ _ _ _ Er) in H.
    injection H as <-. cbn. repeat split.
    left. exists err. split; [reflexivity|].
    apply in_or_app. left. apply in_or_app. right. now left.
Qed.

(** X16: whatever makes the extraction of a file fail, the rejection has
    the code E_FILE_PARSE_FAILURE and the path module as first parameter,
    and it wraps the error of the read or of the parser. *)
Theorem extract_rejection (file : string) (e : Error) :
  _extractArchitectureNotes readFileAsync parseComments file = Rejected e ->
  codeOf e = "E_FILE_PARSE_FAILURE"
  /\ hd_error (paramsOf e) = Some VPathModule
  /\ ((exists err, readFileAsync file = Rejected err
                   /\ In err (wrappedErrorsOf e))
      \/ (exists content err,
            readFileAsync file = Fulfilled content
            /\ parseComments (_stripShebang content) = Rejected err
            /\ In err (wrappedErrorsOf e))).
Proof. exact (extract_rejected_inv file e). Qed.

(** X17: a fulfilled extraction means the file was read and the parser
    accepted the content after [_stripShebang]; the notes are those of the
    comments in the order of the comments, and each note carries the path
    of the file, the location of one of its comments and one to eight
    levels that are numbers. *)
Theorem extract_fulfilled (file : string) (notes : list ArchitectureNote) :
  _extractArchitectureNotes readFileAsync parseComments file
  = Fulfilled notes ->
  exists content comments,
    readFileAsync file = Fulfilled content
    /\ parseComments (_stripShebang content) = Fulfilled comments
    /\ notes = flat_map (visitComment file []) comments
    /\ forall note, In note notes ->
         filePath note = file
         /\ (exists path, In path comments /\ loc note = commentLoc path)
         /\ (1 <= List.length (titleLevels note) <= 8)%nat
         /\ Forall isNatural (titleLevels note).
Proof.
  intros H. destruct (readFileAsync file) as [content|err] eqn:Er.
  - rewrite (extract_read_success _ _ _ _ Er) in H.
    destruct (parseComments (_stripShebang content)) as [cs|err] eqn:Ep;
      [|discriminate].
    injection H as <-. exists content, cs.
    rewrite visit_comments. cbn [List.app].
    repeat split; auto;
      apply in_flat_map in H as (path & Hin & Hnote);
      destruct (note_levels _ _ _ Hnote) as (H1 & H2 & H3 & H4);
      eauto; lia.
  - rewrite (extract_read_failure _ _ _ _ Er) in H. discriminate.
Qed.
End OneFile.

Lemma extract_rejection_witness :
  exists e,
    _extractArchitectureNotes Sample.readFileAsync Sample.parseComments
      "/repo/src/missing.js" = Rejected e
    /\ codeOf e = "E_FILE_PARSE_FAILURE"
    /\ hd_error (paramsOf e) = Some VPathModule.
Proof.
  eexists. split; [vm_compute; reflexivity|].
  match goal with
  | |- codeOf ?e = _ /\ _ =>
      destruct (extract_rejection Sample.readFileAsync Sample.parseComments
                  "/repo/src/missing.js" e) as (H1 & H2 & _);
        [vm_compute; reflexivity|split; [exact H1|exact H2]]
  end.
Defined.

Lemma extract_fulfilled_witness :
  exists content comments,
    Sample.readFileAsync "/repo/bin/cli.js" = Fulfilled content
    /\ Sample.parseComments (_stripShebang content) = Fulfilled comments
    /\ [{| num := "2"; title := "CLI"; content := "Reads the options.";
           filePath := "/repo/bin/cli.js"; loc := Sample.lines 2 4 |}]
       = flat_map (visitComment "/repo/bin/cli.js" []) comments.
Proof.
  destruct (extract_fulfilled Sample.readFileAsync Sample.parseComments
              "/repo/bin/cli.js"
              [{| num := "2"; title := "CLI"; content := "Reads the options.";
                  filePath := "/repo/bin/cli.js"; loc := Sample.lines 2 4 |}])
    as (content & comments & H1 & H2 & H3 & _).
  - vm_compute. reflexivity.
  - exists content, comments. auto.
Defined.

(** ** Several files, several patterns *)

Lemma all_map_fulfilled {A B : Type} (f : A -> Promise B) (xs : list A)
    (vs : list B) :
  Forall2 (fun x v => f x = Fulfilled v) xs vs ->
  all (map f xs) = Fulfilled vs.
Proof.
  intros H. apply all_fulfilled.
  induction H; simpl; constructor; auto.
Qed.

Section Collecting.
Variable readFileAsync : string -> Promise string.
Variable parseComments : string -> Promise (list Comment).

(** X18: when every file is extracted, the collection is the notes of the
    files one after the other, in the order of the files. *)
Theorem collect_fulfilled (files : list string)
    (bulks : list (list ArchitectureNote)) :
  Forall2
    (fun file notes =>
       _extractArchitectureNotes readFileAsync parseComments file
       = Fulfilled notes) files bulks ->
  collect readFileAsync parseComments files = Fulfilled (List.concat bulks).
Proof.
  intros H. unfold collect.
  rewrite (all_map_fulfilled _ _ _ H). simpl. now rewrite linearize_is_concat.
Qed.

Lemma collect_rejected_inv (files : list string) (e : Error) :
  collect readFileAsync parseComments files = Rejected e ->
  codeOf e = "E_FILE_PARSE_FAILURE"
  /\ exists file,
       In file files
       /\ _extractArchitectureNotes readFileAsync parseComments file
          = Rejected e.
Proof.
  intros H. unfold collect in H.
  destruct (all (map _ files)) as [vs|e0] eqn:E; [discriminate|].
  injection H as <-. apply all_rejected_inv in E.
  apply in_map_iff in E. destruct E as (file & Hf & Hin).
  split; [|eauto].
  now destruct (extract_rejected_inv _ _ _ _ Hf).
Qed.

(** X19: a rejected collection carries the rejection of one of its files,
    unchanged, so its code is E_FILE_PARSE_FAILURE. *)
Theorem collect_rejection (files : list string) (e : Error) :
  collect readFileAsync parseComments files = Rejected e ->
  codeOf e = "E_FILE_PARSE_FAILURE"
  /\ exists file,
       In file files
       /\ _extractArchitectureNotes readFileAsync parseComments file
          = Rejected e.
Proof. exact (collect_rejected_inv files e). Qed.

(** X20: one file whose extraction is rejected is enough for the collection
    to be rejected: no note of the other files is returned. *)
Theorem collect_fail_fast (files : list string) (file : string) (e : Error) :
  In file files ->
  _extractArchitectureNotes readFileAsync parseComments file = Rejected e ->
  exists e', collect readFileAsync parseComments files = Rejected e'.
Proof. intros Hin Hf. eapply collect_rejected; eauto. Qed.
End Collecting.

Lemma collect_fulfilled_witness :
  collect Sample.readFileAsync Sample.parseComments
    ["/repo/bin/cli.js"; "/repo/src/a.js"]
  = Fulfilled
      [{| num := "2"; title := "CLI"; content := "Reads the options.";
          filePath := "/repo/bin/cli.js"; loc := Sample.lines 2 4 |};
       {| num := "1"; title := "Main"; content := "The entry point.";
          filePath := "/repo/src/a.js"; loc := Sample.lines 1 3 |}].
Proof.
  apply (collect_fulfilled Sample.readFileAsync Sample.parseComments
           ["/repo/bin/cli.js"; "/repo/src/a.js"]
           [[{| num := "2"; title := "CLI"; content := "Reads the options.";
                filePath := "/repo/bin/cli.js"; loc := Sample.lines 2 4 |}];
            [{| num := "1"; title := "Main"; content := "The entry point.";
                filePath := "/repo/src/a.js"; loc := Sample.lines 1 3 |}]]).
  repeat constructor.
Defined.

Lemma collect_rejection_witness :
  exists e,
    collect Sample.readFileAsync Sample.parseComments
      ["/repo/src/a.js"; "/repo/src/broken.js"] = Rejected e
    /\ codeOf e = "E_FILE_PARSE_FAILURE".
Proof.
  eexists. split; [vm_compute; reflexivity|].
  match goal with
  | |- codeOf ?e = _ =>
      destruct (collect_rejection Sample.readFileAsync Sample.parseComments
                  ["/repo/src/a.js"; "/repo/src/broken.js"] e) as (H & _);
        [vm_compute; reflexivity|exact H]
  end.
Defined.

Lemma collect_fail_fast_witness :
  exists e',
    collect Sample.readFileAsync Sample.parseComments
      ["/repo/src/a.js"; "/repo/bin/bad.js"; "/repo/bin/cli.js"]
    = Rejected e'.
Proof.
  eapply (collect_fail_fast Sample.readFileAsync Sample.parseComments
            ["/repo/src/a.js"; "/repo/bin/bad.js"; "/repo/bin/cli.js"]
            "/repo/bin/bad.js").
  - right. left. reflexivity.
  - vm_compute. reflexivity.
Defined.

Section Patterns.
Variable glob : string -> string -> Promise (list string).

Lemma glob_wrapped (cwd pattern : string) :
  catch_ (then_ (glob pattern cwd) (fun files => Fulfilled files))
    (fun err => Rejected (wrap err "E_PATTERN_FAILURE" [VString pattern]))
  = match glob pattern cwd with
    | Fulfilled files => Fulfilled files
    | Rejected err =>
        Rejected (wrap err "E_PATTERN_FAILURE" [VString pattern])
    end.
Proof. destruct (glob pattern cwd); reflexivity. Qed.

(** X21: when every pattern resolves, the files are those of the patterns
    one after the other, in the order of the patterns; a file that two
    patterns give comes twice. *)
Theorem computePatterns_fulfilled (cwd : string) (patterns : list string)
    (bulks : list (list string)) :
  Forall2 (fun pattern files => glob pattern cwd = Fulfilled files)
    patterns bulks ->
  _computePatterns glob cwd patterns = Fulfilled (List.concat bulks).
Proof.
  intros H. unfold _computePatterns.
  rewrite (all_map_fulfilled _ patterns bulks).
  - simpl. now rewrite linearize_is_concat.
  - induction H as [|p fs ps bs Hp _ IH]; constructor; auto.
    now rewrite glob_wrapped, Hp.
Qed.

Lemma computePatterns_rejected_inv (cwd : string) (patterns : list string)
    (e : Error) :
  _computePatterns glob cwd patterns = Rejected e ->
  exists pattern err,
    In pattern patterns
    /\ glob pattern cwd = Rejected err
    /\ e = wrap err "E_PATTERN_FAILURE" [VString pattern]
    /\ codeOf e = "E_PATTERN_FAILURE"
    /\ hd_error (paramsOf e) = Some (VString pattern)
    /\ In err (wrappedErrorsOf e).
Proof.
  unfold _computePatterns. intros H.
  destruct (all (map _ patterns)) as [vs|e0] eqn:E; [discriminate|].
  injection H as <-. apply all_rejected_inv in E.
  apply in_map_iff in E. destruct E as (pattern & Hp & Hin).
  rewrite glob_wrapped in Hp.
  destruct (glob pattern cwd) as [fs|err] eqn:Eg; [discriminate|].
  injection Hp as <-. exists pattern, err.
  unfold wrap. cbn [codeOf paramsOf wrappedErrorsOf].
  repeat split; auto.
  - destruct (truthy (message err) && _); reflexivity.
  - apply in_or_app. right. now left.
Qed.

(** X22: a rejected resolution of the patterns comes from one pattern whose
    globbing failed: the rejection has the code E_PATTERN_FAILURE, that
    pattern as first parameter, and wraps the error of the globbing. *)
Theorem computePatterns_rejection (cwd : string) (patterns : list string)
    (e : Error) :
  _computePatterns glob cwd patterns = Rejected e ->
  exists pattern err,
    In pattern patterns
    /\ glob pattern cwd = Rejected err
    /\ e = wrap err "E_PATTERN_FAILURE" [VString pattern]
    /\ codeOf e = "E_PATTERN_FAILURE"
    /\ hd_error (paramsOf e) = Some (VString pattern)
    /\ In err (wrappedErrorsOf e).
Proof. exact (computePatterns_rejected_inv cwd patterns e). Qed.
End Patterns.

Lemma computePatterns_fulfilled_witness :
  _computePatterns SampleGlob.glob "/repo" ["bin/*.js"; "test/*.js"; "src/*.js"]
  = Fulfilled ["/repo/bin/cli.js"; "/repo/src/a.js"].
Proof.
  apply (computePatterns_fulfilled SampleGlob.glob "/repo"
           ["bin/*.js"; "test/*.js"; "src/*.js"]
           [["/repo/bin/cli.js"]; []; ["/repo/src/a.js"]]).
  repeat constructor.
Defined.

Lemma computePatterns_rejection_witness :
  exists pattern err,
    In pattern ["src/*.js"; "locked/*.js"]
    /\ SampleGlob.glob pattern "/repo" = Rejected err
    /\ pattern = "locked/*.js".
Proof.
  destruct (computePatterns_rejection SampleGlob.glob "/repo"
              ["src/*.js"; "locked/*.js"]
              (wrap (NativeError "EACCES: permission denied, scandir")
                 "E_PATTERN_FAILURE" [VString "locked/*.js"]))
    as (pattern & err & Hin & Hg & _ & _ & Hp & _).
  - vm_compute. reflexivity.
  - exists pattern, err. repeat split; auto.
    vm_compute in Hp. now injection Hp as <-.
Defined.

(** ** The document *)

Lemma join_hashes {A : Type} (l : list A) :
  join "" (map (fun _ => "#") l) = hashes (List.length l).
Proof.
  induction l as [|x l IH]; [reflexivity|].
  destruct l as [|y l]; [reflexivity|].
  change (join "" (map (fun _ => "#") (x :: y :: l)))
    with ("#" ++ "" ++ join "" (map (fun _ : A => "#") (y :: l))).
  rewrite IH. reflexivity.
Qed.

(** X25: the heading of a note is the title level followed by one # for
    each level of the id, a space and the title. *)
Theorem note_heading (eol titleLevel base cwd rendered : string)
    (note : ArchitectureNote) :
  appendNote eol titleLevel base cwd rendered note
  = rendered ++ eol ++ eol
    ++ titleLevel ++ hashes (List.length (titleLevels note))
    ++ " " ++ title note ++ eol ++ eol
    ++ content note ++ eol ++ eol
    ++ contextLink base cwd note ++ eol ++ eol.
Proof.
  unfold appendNote, titleLevels. now rewrite join_hashes, length_map.
Qed.

Lemma appendNote_block (eol titleLevel base cwd rendered : string)
    (note : ArchitectureNote) :
  appendNote eol titleLevel base cwd rendered note
  = rendered ++ appendNote eol titleLevel base cwd "" note.
Proof. reflexivity. Qed.

Lemma fold_appendNote (eol titleLevel base cwd : string)
    (notes : list ArchitectureNote) :
  forall rendered,
    fold_left (appendNote eol titleLevel base cwd) notes rendered
    = rendered ++ glue (map (appendNote eol titleLevel base cwd "") notes).
Proof.
  induction notes as [|n notes IH]; intros rendered; simpl.
  - now rewrite append_nil_r.
  - rewrite IH, (appendNote_block _ _ _ _ rendered), append_assoc.
    reflexivity.
Qed.

(** X26: the reduce over the notes puts one block per note after what was
    rendered before, in the order of the notes; the block of a note does not
    depend on the other notes. *)
Theorem render_blocks (eol titleLevel base cwd : string)
    (notes : list ArchitectureNote) (rendered : string) :
  fold_left (appendNote eol titleLevel base cwd) notes rendered
  = rendered ++ glue (map (appendNote eol titleLevel base cwd "") notes).
Proof. exact (fold_appendNote eol titleLevel base cwd notes rendered). Qed.

Lemma truthy_append (a b : string) :
  truthy (a ++ b) = truthy a || truthy b.
Proof. destruct a; simpl; [reflexivity|reflexivity]. Qed.

Lemma block_truthy (eol titleLevel base cwd : string)
    (note : ArchitectureNote) :
  truthy (appendNote eol titleLevel base cwd "" note) = true.
Proof.
  unfold appendNote. rewrite !truthy_append. simpl.
  rewrite !orb_true_r. reflexivity.
Qed.

Section Document.
Variable readFileAsync : string -> Promise string.
Variable glob : string -> string -> Promise (list string).
Variable parseComments : string -> Promise (list Comment).
Variable sort :
  (ArchitectureNote -> ArchitectureNote -> Z) ->
  list ArchitectureNote -> list ArchitectureNote.
Variable EOL : string.

(** X23: a rejection of [jsArch] is either the rejection of the patterns,
    with the code E_PATTERN_FAILURE, or the rejection of the collection,
    with the code E_FILE_PARSE_FAILURE; no other code comes out. *)
Theorem jsArch_rejection (cwd : string) (patterns : list string)
    (eol titleLevel base : option string) (e : Error) :
  jsArch readFileAsync glob parseComments sort EOL cwd patterns
    eol titleLevel base = Rejected e ->
  (codeOf e = "E_PATTERN_FAILURE"
   /\ _computePatterns glob cwd patterns = Rejected e)
  \/ (codeOf e = "E_FILE_PARSE_FAILURE"
      /\ exists files,
           _computePatterns glob cwd patterns = Fulfilled files
           /\ collect readFileAsync parseComments files = Rejected e).
Proof.
  unfold jsArch. intros H.
  destruct (_computePatterns glob cwd patterns) as [files|e0] eqn:Ep.
  - right. simpl in H.
    destruct (collect readFileAsync parseComments files) as [notes|e1] eqn:Ec;
      [discriminate|].
    simpl in H. injection H as <-.
    split; [|eauto].
    now destruct (collect_rejected_inv _ _ files _ Ec).
  - left. simpl in H. injection H as <-. split; [|reflexivity].
    destruct (computePatterns_rejected_inv _ _ _ _ Ep)
      as (p & err & _ & _ & _ & Hc & _). exact Hc.
Qed.

Hypothesis sort_length :
  forall l, List.length (sort _compareArchitectureNotes l) = List.length l.

(** X24: when the patterns resolve and the files are extracted, [jsArch]
    is fulfilled with the empty string when there is no note at all, and
    otherwise with the header line, two line separators and the blocks of
    the notes in the order the sort gives; an absent or empty [eol] is
    replaced by [EOL], an absent [titleLevel] by # and an absent [base] by
    a dot. The sort is only asked to keep the number of notes. *)
Theorem jsArch_document (cwd : string) (patterns : list string)
    (eol titleLevel base : option string)
    (files : list string) (notes : list ArchitectureNote) :
  _computePatterns glob cwd patterns = Fulfilled files ->
  collect readFileAsync parseComments files = Fulfilled notes ->
  let eol' := eolOr EOL eol in
  let level := match titleLevel with Some t => t | None => "#" end in
  let base' := match base with Some b => b | None => "." end in
  jsArch readFileAsync glob parseComments sort EOL cwd patterns
    eol titleLevel base
  = Fulfilled
      match notes with
      | [] => ""
      | _ :: _ =>
          level ++ " Architecture Notes" ++ eol' ++ eol'
          ++ glue (map (appendNote eol' level base' cwd "")
                     (sort _compareArchitectureNotes notes))
      end.
Proof.
  intros Hp Hc eol' level base'. unfold jsArch. rewrite Hp. simpl.
  rewrite Hc. simpl. f_equal. unfold render.
  fold eol'. fold level. fold base'.
  change TITLE_LEVEL with "#". change BASE with ".".
  fold level. fold base'.
  rewrite fold_appendNote. cbn [append].
  pose proof (sort_length notes) as Hlen.
  destruct notes as [|n notes].
  - destruct (sort _compareArchitectureNotes []); [reflexivity|discriminate].
  - destruct (sort _compareArchitectureNotes (n :: notes)) as [|s sorted];
      [discriminate|].
    unfold addHeader. cbn [map glue].
    now rewrite truthy_append, block_truthy.
Qed.
End Document.

Lemma jsArch_rejection_witness :
  exists e,
    jsArch Sample.readFileAsync SampleGlob.glob Sample.parseComments
      InsertionSort Sample.NL "/repo" ["src/*.js"; "locked/*.js"]
      None None None = Rejected e
    /\ codeOf e = "E_PATTERN_FAILURE".
Proof.
  eexists. split; [vm_compute; reflexivity|].
  match goal with
  | |- codeOf ?e = _ =>
      destruct (jsArch_rejection Sample.readFileAsync SampleGlob.glob
                  Sample.parseComments InsertionSort Sample.NL "/repo"
                  ["src/*.js"; "locked/*.js"] None None None e)
        as [[H _]|[H _]];
        [vm_compute; reflexivity|exact H|vm_compute in H; discriminate H]
  end.
Defined.

Lemma insertLeftwards_length {A : Type} (comparefn : A -> A -> Z)
    (element : A) (sortedRev : list A) :
  List.length (insertLeftwards comparefn element sortedRev)
  = S (List.length sortedRev).
Proof.
  induction sortedRev as [|tmp rest IH]; simpl; [reflexivity|].
  destruct (comparefn tmp element >? 0)%Z; simpl; [now rewrite IH|reflexivity].
Qed.

Lemma InsertionSort_length {A : Type} (comparefn : A -> A -> Z) (a : list A) :
  List.length (InsertionSort comparefn a) = List.length a.
Proof.
  unfold InsertionSort. rewrite length_rev.
  assert (H : forall acc,
             List.length
               (fold_left (fun sortedRev element =>
                             insertLeftwards comparefn element sortedRev)
                  a acc)
             = (List.length acc + List.length a)%nat).
  { induction a as [|x a IH]; intros acc; simpl; [lia|].
    rewrite IH, insertLeftwards_length. lia. }
  now rewrite H.
Qed.

Lemma jsArch_document_witness :
  jsArch Sample.readFileAsync SampleGlob.glob Sample.parseComments
    InsertionSort Sample.NL "/repo" ["bin/*.js"; "test/*.js"; "src/*.js"]
    None None None
  = Fulfilled
      ("# Architecture Notes" ++ Sample.NL ++ Sample.NL
       ++ Sample.NL ++ Sample.NL ++ "## Main" ++ Sample.NL ++ Sample.NL
       ++ "The entry point." ++ Sample.NL ++ Sample.NL
       ++ "[See in context](./src/a.js#L1-L3)" ++ Sample.NL ++ Sample.NL
       ++ Sample.NL ++ Sample.NL ++ "## CLI" ++ Sample.NL ++ Sample.NL
       ++ "Reads the options." ++ Sample.NL ++ Sample.NL
       ++ "[See in context](./bin/cli.js#L2-L4)" ++ Sample.NL ++ Sample.NL).
Proof.
  rewrite (jsArch_document Sample.readFileAsync SampleGlob.glob
             Sample.parseComments InsertionSort Sample.NL
             (InsertionSort_length _)
             "/repo" ["bin/*.js"; "test/*.js"; "src/*.js"] None None None
             ["/repo/bin/cli.js"; "/repo/src/a.js"]
             [{| num := "2"; title := "CLI"; content := "Reads the options.";
                 filePath := "/repo/bin/cli.js"; loc := Sample.lines 2 4 |};
              {| num := "1"; title := "Main"; content := "The entry point.";
                 filePath := "/repo/src/a.js"; loc := Sample.lines 1 3 |}]).
  - vm_compute. reflexivity.
  - vm_compute. reflexivity.
  - vm_compute. reflexivity.
Defined.

(** ** Ties and chains of the comparison *)

Lemma natural_eq (x y : number) :
  isNatural x -> isNatural y -> gt x y = false -> lt x y = false -> x = y.
Proof.
  intros (a & -> & _) (b & -> & _). simpl. intros Hg Hl.
  f_equal. apply Z.ltb_ge in Hl. rewrite Z.gtb_ltb in Hg.
  apply Z.ltb_ge in Hg. lia.
Qed.

Lemma walkLevels_tie (la : list number) :
  forall lb, Forall isNatural la -> Forall isNatural lb ->
  (walkLevels la lb = 0 <-> exists r, lb = (la ++ r)%list).
Proof.
  induction la as [|x la IH]; intros lb Ha Hb; simpl.
  - split; eauto.
  - inversion Ha as [|? ? Hx Ha']; subst.
    destruct lb as [|y lb].
    + split; [discriminate|]. intros (r & Hr). discriminate.
    + inversion Hb as [|? ? Hy Hb']; subst.
      destruct (gt x y) eqn:Eg.
      { split; [discriminate|]. intros (r & [= -> _]).
        rewrite number_not_gt in Eg. discriminate. }
      destruct (lt x y) eqn:El.
      { split; [discriminate|]. intros (r & [= -> _]).
        rewrite number_not_lt in El. discriminate. }
      rewrite (IH lb Ha' Hb'). rewrite (natural_eq x y Hx Hy Eg El).
      split; intros (r & Hr).
      * exists r. now rewrite Hr.
      * injection Hr as Hr. eauto.
Qed.

(** X7: for notes whose levels are numbers that the runtime holds exactly
    (not negative and below 2^53, as every level of at most 15 digits is),
    the comparison gives 0 exactly when the levels of [a] are the first
    levels of [b]: the same id, or an ancestor compared with a descendant.
    Levels from 2^53 on are left out: the runtime rounds them, and two
    different ids can then tie. *)
Theorem compare_tie (a b : ArchitectureNote) :
  exactlyNumbered a -> exactlyNumbered b ->
  (_compareArchitectureNotes a b = 0
   <-> exists r, titleLevels b = (titleLevels a ++ r)%list).
Proof.
  intros Ha Hb. rewrite compare_walk.
  apply walkLevels_tie; now apply exactlyNumbered_wellNumbered.
Qed.

Lemma compare_tie_witness :
  _compareArchitectureNotes (noteOf "1.2") (noteOf "1.2.7") = 0
  <-> exists r, titleLevels (noteOf "1.2.7")
                = (titleLevels (noteOf "1.2") ++ r)%list.
Proof.
  apply (compare_tie (noteOf "1.2") (noteOf "1.2.7"));
    apply shortLevels_exactlyNumbered; reflexivity.
Defined.

Lemma walkLevels_notAfter_trans (la : list number) :
  forall lb lc,
    Forall isNatural la -> Forall isNatural lb -> Forall isNatural lc ->
    walkLevels la lb <= 0 -> walkLevels lb lc <= 0 -> walkLevels la lc <= 0.
Proof.
  induction la as [|x la IH]; intros lb lc Ha Hb Hc Hab Hbc; simpl in *; [lia|].
  destruct lb as [|y lb]; [lia|]. destruct lc as [|z lc]; [simpl in Hbc; lia|].
  inversion Ha as [|? ? (a & -> & _) Ha']; subst.
  inversion Hb as [|? ? (b & -> & _) Hb']; subst.
  inversion Hc as [|? ? (c & -> & _) Hc']; subst.
  simpl in *.
  destruct (a >? b) eqn:E1; [lia|].
  destruct (b >? c) eqn:E2; [lia|].
  rewrite Z.gtb_ltb in E1, E2. apply Z.ltb_ge in E1, E2.
  destruct (a <? b) eqn:E3; destruct (b <? c) eqn:E4;
    try apply Z.ltb_lt in E3; try apply Z.ltb_lt in E4;
    try apply Z.ltb_ge in E3; try apply Z.ltb_ge in E4.
  - replace (a >? c) with false by (symmetry; rewrite Z.gtb_ltb; apply Z.ltb_ge; lia).
    replace (a <? c) with true by (symmetry; apply Z.ltb_lt; lia). lia.
  - replace (a >? c) with false by (symmetry; rewrite Z.gtb_ltb; apply Z.ltb_ge; lia).
    replace (a <? c) with true by (symmetry; apply Z.ltb_lt; lia). lia.
  - replace (a >? c) with false by (symmetry; rewrite Z.gtb_ltb; apply Z.ltb_ge; lia).
    replace (a <? c) with true by (symmetry; apply Z.ltb_lt; lia). lia.
  - replace (a >? c) with false by (symmetry; rewrite Z.gtb_ltb; apply Z.ltb_ge; lia).
    replace (a <? c) with false by (symmetry; apply Z.ltb_ge; lia).
    apply (IH lb lc); assumption.
Qed.

Lemma notAfter_chain (a b c : ArchitectureNote) :
  wellNumbered a -> wellNumbered b -> wellNumbered c ->
  notAfter a b -> notAfter b c -> notAfter a c.
Proof.
  unfold notAfter, wellNumbered. rewrite !compare_walk.
  intros Ha Hb Hc Hab Hbc.
  exact (walkLevels_notAfter_trans _ _ _ Ha Hb Hc Hab Hbc).
Qed.

(** X8: for notes whose levels are numbers, "not after" (a result of 0 or
    -1) goes along chains: when [a] is not after [b] and [b] is not after
    [c], [a] is not after [c]. *)
Theorem notAfter_trans (a b c : ArchitectureNote) :
  wellNumbered a -> wellNumbered b -> wellNumbered c ->
  notAfter a b -> notAfter b c -> notAfter a c.
Proof. exact (notAfter_chain a b c). Qed.

Lemma notAfter_trans_witness :
  notAfter (noteOf "1") (noteOf "1.1") /\ notAfter (noteOf "1.1") (noteOf "2")
  /\ notAfter (noteOf "1") (noteOf "2").
Proof.
  assert (H1 : notAfter (noteOf "1") (noteOf "1.1"))
    by (unfold notAfter; vm_compute; discriminate).
  assert (H2 : notAfter (noteOf "1.1") (noteOf "2"))
    by (unfold notAfter; vm_compute; discriminate).
  split; [exact H1|]. split; [exact H2|].
  apply (notAfter_trans (noteOf "1") (noteOf "1.1") (noteOf "2"));
    try assumption; apply idShape_wellNumbered; reflexivity.
Defined.

Lemma notAfter_total (a b : ArchitectureNote) :
  ~ notAfter a b -> notAfter b a.
Proof.
  unfold notAfter. intros H.
  rewrite !compare_walk in *.
  destruct (walkLevels_range (titleLevels a) (titleLevels b)) as [E|[E|E]];
    try lia.
  destruct (walkLevels_range (titleLevels b) (titleLevels a)) as [E'|[E'|E']];
    try lia.
  exfalso. exact (walkLevels_greater _ _ E E').
Qed.

(** ** The insertion sort with this comparison *)

Lemma insertLeftwards_perm (e : ArchitectureNote) (l : list ArchitectureNote) :
  Permutation (insertLeftwards _compareArchitectureNotes e l) (e :: l).
Proof.
  induction l as [|t l IH]; simpl; [constructor; constructor|].
  destruct (_compareArchitectureNotes t e >? 0); [|apply Permutation_refl].
  eapply Permutation_trans; [apply perm_skip, IH|apply perm_swap].
Qed.

Lemma insertLeftwards_sorted (e : ArchitectureNote)
    (l : list ArchitectureNote) :
  wellNumbered e -> Forall wellNumbered l ->
  StronglySorted (fun x y => notAfter y x) l ->
  StronglySorted (fun x y => notAfter y x) (insertLeftwards _compareArchitectureNotes e l).
Proof.
  intros He Hl Hs. induction Hs as [|t l Hs IH Ht]; simpl.
  - repeat constructor.
  - inversion Hl as [|? ? Hwt Hl']; subst.
    destruct (_compareArchitectureNotes t e >? 0) eqn:E.
    + constructor; [auto|].
      apply (Permutation_Forall (Permutation_sym (insertLeftwards_perm e l))).
      constructor; [|exact Ht].
      apply notAfter_total. unfold notAfter.
      apply Z.gtb_lt in E. lia.
    + assert (Hte : notAfter t e).
      { unfold notAfter. rewrite Z.gtb_ltb in E.
        apply Z.ltb_ge in E. exact E. }
      constructor; [constructor; assumption|].
      constructor; [exact Hte|].
      rewrite Forall_forall in *. intros x Hx.
      apply (notAfter_chain x t e); auto.
Qed.

(** X9: with the insertion sort of the older engines and notes whose levels
    are numbers, the sorted array is a rearrangement of the input in which
    every note is not after any note that follows it: ancestors come before
    their descendants and levels are in numeric order. *)
Theorem InsertionSort_sorted (notes : list ArchitectureNote) :
  Forall wellNumbered notes ->
  Permutation (InsertionSort _compareArchitectureNotes notes) notes
  /\ StronglySorted notAfter (InsertionSort _compareArchitectureNotes notes).
Proof.
  intros Hall. unfold InsertionSort.
  assert (H : forall acc,
             Forall wellNumbered acc ->
             StronglySorted (fun x y => notAfter y x) acc ->
             let out := fold_left (fun sortedRev element =>
                                     insertLeftwards _compareArchitectureNotes element sortedRev)
                          notes acc in
             Permutation out (rev notes ++ acc)
             /\ StronglySorted (fun x y => notAfter y x) out).
  { induction Hall as [|n notes Hn Hall IH]; intros acc Hacc Hs; simpl.
    - split; [apply Permutation_refl|exact Hs].
    - destruct (IH (insertLeftwards _compareArchitectureNotes n acc)) as (Hp & Hs').
      + apply (Permutation_Forall (Permutation_sym (insertLeftwards_perm n acc))).
        constructor; assumption.
      + apply insertLeftwards_sorted; assumption.
      + split; [|exact Hs'].
        eapply Permutation_trans; [exact Hp|].
        rewrite <- app_assoc. apply Permutation_app_head.
        apply insertLeftwards_perm. }
  destruct (H [] (Forall_nil _) (SSorted_nil _)) as (Hp & Hs).
  cbn zeta in *. rewrite app_nil_r in Hp. split.
  - eapply Permutation_trans; [apply Permutation_sym, Permutation_rev|].
    eapply Permutation_trans; [exact Hp|].
    apply Permutation_sym, Permutation_rev.
  - set (out := fold_left _ notes []) in *. clearbody out. clear - Hs.
    induction Hs as [|x l Hs IH Hx]; simpl; [constructor|].
    assert (Happ : forall l1, StronglySorted notAfter l1 ->
              Forall (fun y => notAfter y x) l1 ->
              StronglySorted notAfter (l1 ++ [x])).
    { induction 1 as [|y l1 Hs1 IH1 Hy]; intros Hf; simpl.
      - repeat constructor.
      - inversion Hf; subst. constructor; [auto|].
        apply Forall_app. split; [exact Hy|]. constructor; auto. }
    apply Happ; [exact IH|].
    apply Forall_rev. exact Hx.
Qed.

(** ** Links to files below the working directory *)

Lemma split_piece (sep : ascii) (w s h : string) (tl : list string) :
  allChars (fun c => negb (Ascii.eqb c sep)) w = true ->
  split sep s = h :: tl ->
  split sep (w ++ s) = (w ++ h) :: tl.
Proof.
  intros Hw Hs. induction w as [|c w IH]; simpl in *; [exact Hs|].
  apply andb_true_iff in Hw as [Hc Hw].
  apply negb_true_iff in Hc. rewrite Hc, (IH Hw). reflexivity.
Qed.

Lemma split_pathOf (names : list string) :
  Forall isName names -> split "/" (pathOf names) = "" :: names.
Proof.
  induction 1 as [|w names (_ & Hw & _) _ IH]; [reflexivity|].
  cbn [pathOf]. change ("/" ++ w ++ pathOf names)
    with (String "/" (w ++ pathOf names)).
  cbn [split]. rewrite Ascii.eqb_refl.
  rewrite (split_piece "/" w _ "" names Hw IH). now rewrite append_nil_r.
Qed.

Lemma segments_pathOf (names : list string) :
  Forall isName names -> segments (pathOf names) = names.
Proof.
  intros H. unfold segments. rewrite (split_pathOf _ H). simpl.
  induction H as [|w names (Hne & _) _ IH]; [reflexivity|].
  simpl. destruct w; [congruence|]. simpl. now rewrite IH.
Qed.

Lemma dropCommon_prefix (dirs below : list string) :
  dropCommon dirs (dirs ++ below) = ([], below).
Proof.
  induction dirs as [|d dirs IH]; simpl; [destruct below; reflexivity|].
  now rewrite String.eqb_refl.
Qed.

Lemma pathOf_app (a b : list string) : pathOf (a ++ b) = pathOf a ++ pathOf b.
Proof.
  induction a as [|w a IH]; [reflexivity|].
  simpl. now rewrite IH, !append_assoc.
Qed.

Lemma relative_below (dirs below : list string) :
  Forall isName dirs -> Forall isName below ->
  relative (pathOf dirs) (pathOf (dirs ++ below)) = join "/" below.
Proof.
  intros Hd Hb. unfold relative.
  rewrite (segments_pathOf _ Hd).
  rewrite (segments_pathOf (dirs ++ below)) by (apply Forall_app; auto).
  now rewrite dropCommon_prefix.
Qed.

(** X28: for a working directory given as an absolute path of one or more
    names (so not the empty path) and a file below it, the link goes to the
    base, a slash and the path of the file from the working directory, with
    the first and last line of the comment. *)
Theorem context_link_below_cwd (base : string) (dirs below : list string)
    (note : ArchitectureNote) :
  dirs <> [] ->
  Forall isName dirs -> Forall isName below ->
  filePath note = pathOf (dirs ++ below) ->
  contextLink base (pathOf dirs) note
  = "[See in context](" ++ base ++ "/" ++ join "/" below
    ++ "#L" ++ toString (line (start (loc note)))
    ++ "-L" ++ toString (line (end_ (loc note))) ++ ")".
Proof.
  intros _ Hd Hb Hf. unfold contextLink. rewrite Hf.
  now rewrite (relative_below _ _ Hd Hb).
Qed.

Lemma context_link_below_cwd_witness :
  contextLink "docs/.." "/home/me/repo"
    {| num := "2.1"; title := "Options"; content := "";
       filePath := "/home/me/repo/bin/cli.js"; loc := Sample.lines 7 12 |}
  = "[See in context](docs/../bin/cli.js#L7-L12)".
Proof.
  apply (context_link_below_cwd "docs/.." ["home"; "me"; "repo"]
           ["bin"; "cli.js"]
           {| num := "2.1"; title := "Options"; content := "";
              filePath := "/home/me/repo/bin/cli.js";
              loc := Sample.lines 7 12 |}).
  - discriminate.
  - repeat constructor; discriminate.
  - repeat constructor; discriminate.
  - reflexivity.
Defined.

Lemma InsertionSort_sorted_witness :
  map num (InsertionSort _compareArchitectureNotes
             (map noteOf ["2.1"; "10"; "1.1"; "2"; "1"]))
  = ["1"; "1.1"; "2"; "2.1"; "10"]
  /\ StronglySorted notAfter
       (InsertionSort _compareArchitectureNotes
          (map noteOf ["2.1"; "10"; "1.1"; "2"; "1"])).
Proof.
  split; [reflexivity|].
  apply (InsertionSort_sorted (map noteOf ["2.1"; "10"; "1.1"; "2"; "1"])).
  repeat (apply Forall_cons; [apply idShape_wellNumbered; reflexivity|]).
  apply Forall_nil.
Defined.
